(** * Device availability handler (lib/extension/deviceAvailability.js)

    A shallow embedding of [DeviceAvailabilityHandler]: the eligibility
    predicate [isPingable], the per-address timers, the pending list, the
    serial command queue and the availability publishes, together with the
    properties the design document states about them. *)

From stdpp Require Import gmap strings list fin_maps pretty.

Local Open Scope string_scope.
Local Open Scope list_scope.

(** ** JavaScript values

    Device attributes and the [friendly_name] of a settings entry are plain
    JavaScript values; the handler only tests them for truthiness, compares
    them with [===] and interpolates them in template literals. *)

Inductive jsval : Type :=
| JUndefined
| JNull
| JBool (b : bool)
| JNum (n : Z)
| JStr (s : string).

#[global] Instance jsval_eq_dec : EqDecision jsval.
Proof. solve_decision. Defined.

(** ToBoolean. *)
Definition truthy (v : jsval) : bool :=
  match v with
  | JUndefined | JNull => false
  | JBool b => b
  | JNum n => negb (n =? 0)%Z
  | JStr s => negb (String.eqb s "")
  end.

(** [a === b]. *)
Definition strict_eq (a b : jsval) : bool := bool_decide (a = b).

(** [a && b] and [a || b] return one of their operands. *)
Definition js_and (a b : jsval) : jsval := if truthy a then b else a.
Definition js_or (a b : jsval) : jsval := if truthy a then a else b.

(** ToString, as applied by a template literal. *)
Definition to_str (v : jsval) : string :=
  match v with
  | JUndefined => "undefined"
  | JNull => "null"
  | JBool true => "true"
  | JBool false => "false"
  | JNum n => pretty n
  | JStr s => s
  end.

(** ** Registry devices *)

Record Device : Type := mkDevice {
  ieeeAddr : string;
  type : jsval;
  powerSource : jsval;
  manufId : jsval;
  modelId : jsval;
}.

(** [isPingable(device)], lines 29-32. *)
Definition isPingable (device : Device) : jsval :=
  js_or
    (js_and
       (js_and (JBool (strict_eq (type device) (JStr "Router")))
               (powerSource device))
       (JBool (negb (strict_eq (powerSource device) (JStr "Battery")))))
    (js_and (JBool (strict_eq (manufId device) (JNum 4448)))
            (JBool (strict_eq (modelId device) (JStr "E11-G13")))).

(** The two disjuncts of the eligibility rule, as propositions. *)
Definition mains_router (d : Device) : Prop :=
  type d = JStr "Router" ∧ truthy (powerSource d) = true ∧
  powerSource d ≠ JStr "Battery".

Definition override_model (d : Device) : Prop :=
  manufId d = JNum 4448 ∧ modelId d = JStr "E11-G13".

(** The boolean the JavaScript expression evaluates to. *)
Definition pingable (d : Device) : bool :=
  (strict_eq (type d) (JStr "Router") && truthy (powerSource d) &&
   negb (strict_eq (powerSource d) (JStr "Battery")))
  || (strict_eq (manufId d) (JNum 4448) &&
      strict_eq (modelId d) (JStr "E11-G13")).


(** ** Collaborators

    The registry ([zigbee]), the settings module, the state cache and the
    MQTT client live outside this file of the repository.  The handler only
    calls them; an [Env] fixes what they answer at the time of a call.  The
    lookups answer; of the collaborators only the MQTT client may raise. *)

Record DeviceSettings : Type := mkSettings {
  friendly_name : jsval;
}.

Record Env : Type := mkEnv {
  (** [zigbee.getDevices()] *)
  zigbee_getDevices : list Device;
  (** [zigbee.getAllClients()] *)
  zigbee_getAllClients : list Device;
  (** [zigbee.getDevice(ieeeAddr)]; [None] when the registry has no entry *)
  zigbee_getDevice : string → option Device;
  (** [settings.getDevice(ieeeAddr)]; [None] when it answers a falsy value *)
  settings_getDevice : string → option DeviceSettings;
  (** the text [JSON.stringify(deviceSettings)] contributes to a log line *)
  stringify_settings : option DeviceSettings → string;
  (** the text of [JSON.stringify(this.state.get(ieeeAddr))] *)
  stringify_state : string → string;
  (** [zigbee.shepherd.find(ieeeAddr, 1)], reduced to the status it logs *)
  shepherd_find : string → option string;
  (** whether [mqtt.publish] on a topic returns; it raises otherwise *)
  mqtt_accepts : string → bool;
}.

(** ** Effects, exceptions and the world *)

Record PublishOptions : Type := mkOptions {
  retain : bool;
  qos : Z;
}.

(** Calls the handler makes on its collaborators, in program order. *)
Inductive Effect : Type :=
| EDebug (msg : string)
| EPublish (topic payload : string) (options : PublishOptions)
| EClearTimeout (handle : nat)
| ESetTimeout (handle : nat) (addr : string) (ms : Z)
| EQueuePush (addr : string)
| EQueueStop
| EPing (addr : string)
| EQueueCallback (addr : string).

Inductive Exn : Type :=
| TypeError (msg : string)
| BusError (topic : string).

Inductive outcome (A : Type) : Type :=
| Returned (a : A)
| Thrown (e : Exn).
Arguments Returned {A} a.
Arguments Thrown {A} e.

(** Modelled from the spec: the [queue] package is a third-party module that
    is not part of the sources.  Its state is the FIFO of waiting jobs, the
    job in flight (concurrency 1) and whether [stop()] has halted it.  A job
    of this handler is determined by the address its closure captures. *)
Record Queue : Type := mkQueue {
  jobs : list string;
  active : option string;
  halted : bool;
}.

Record World : Type := mkWorld {
  (** [this.timers] *)
  timers : gmap string nat;
  (** [this.pending] *)
  pending : list string;
  (** [this.availability_timeout] *)
  availability_timeout : Z;
  (** [this.queue] *)
  queue : Queue;
  (** timeouts armed in the runtime: handle to (captured address, delay) *)
  live : gmap nat (string * Z);
  (** next handle [setTimeout] hands out *)
  next_handle : nat;
  (** the probe whose callback the registry still owes *)
  probing : option string;
  (** every collaborator call so far *)
  trace : list Effect;
}.

Definition set_timers (f : gmap string nat → gmap string nat) (w : World) :=
  mkWorld (f (timers w)) (pending w) (availability_timeout w) (queue w)
          (live w) (next_handle w) (probing w) (trace w).
Definition set_pending (f : list string → list string) (w : World) :=
  mkWorld (timers w) (f (pending w)) (availability_timeout w) (queue w)
          (live w) (next_handle w) (probing w) (trace w).
Definition set_queue (f : Queue → Queue) (w : World) :=
  mkWorld (timers w) (pending w) (availability_timeout w) (f (queue w))
          (live w) (next_handle w) (probing w) (trace w).
Definition set_live (f : gmap nat (string * Z) → gmap nat (string * Z))
    (w : World) :=
  mkWorld (timers w) (pending w) (availability_timeout w) (queue w)
          (f (live w)) (next_handle w) (probing w) (trace w).
Definition set_next_handle (f : nat → nat) (w : World) :=
  mkWorld (timers w) (pending w) (availability_timeout w) (queue w)
          (live w) (f (next_handle w)) (probing w) (trace w).
Definition set_probing (p : option string) (w : World) :=
  mkWorld (timers w) (pending w) (availability_timeout w) (queue w)
          (live w) (next_handle w) p (trace w).
Definition set_trace (f : list Effect → list Effect) (w : World) :=
  mkWorld (timers w) (pending w) (availability_timeout w) (queue w)
          (live w) (next_handle w) (probing w) (f (trace w)).

(** ** A state-and-exception monad

    A JavaScript exception leaves every mutation made before it in place, so
    a computation returns its outcome together with the world it reached. *)

Definition M (A : Type) : Type := World → outcome A * World.

Definition ret {A} (a : A) : M A := λ w, (Returned a, w).

Definition bind {A B} (m : M A) (k : A → M B) : M B :=
  λ w, match m w with
       | (Returned a, w') => k a w'
       | (Thrown e, w') => (Thrown e, w')
       end.

Definition throw {A} (e : Exn) : M A := λ w, (Thrown e, w).
Definition gets {A} (f : World → A) : M A := λ w, (Returned (f w), w).
Definition modify (f : World → World) : M unit := λ w, (Returned tt, f w).
Definition emit (e : Effect) : M unit := modify (set_trace (λ t, t ++ [e])).

Notation "x <- m ;; k" := (bind m (λ x, k))
  (at level 100, m at next level, right associativity).
Notation "m ;; k" := (bind m (λ _, k))
  (at level 100, right associativity).

(** [list.forEach(f)] *)
Fixpoint forEach {X} (l : list X) (f : X → M unit) : M unit :=
  match l with
  | [] => ret tt
  | x :: rest => f x ;; forEach rest f
  end.

(** ** Arrays of addresses *)

(** [array.includes(a)] *)
Fixpoint includes (l : list string) (a : string) : bool :=
  match l with
  | [] => false
  | x :: rest => if String.eqb x a then true else includes rest a
  end.

(** [array.indexOf(a)]; [None] stands for [-1]. *)
Fixpoint indexOf (l : list string) (a : string) : option nat :=
  match l with
  | [] => None
  | x :: rest => if String.eqb x a then Some 0 else S <$> indexOf rest a
  end.

(** [array.splice(index, 1)] *)
Definition splice1 (index : nat) (l : list string) : list string :=
  take index l ++ drop (S index) l.

(** ** Logger, bus, registry probe *)

Definition logger_debug (msg : string) : M unit := emit (EDebug msg).

(** Modelled from the spec: [mqtt.publish(topic, payload, options)] lives
    in lib/mqtt.js, which is not part of the sources.  The call is made
    fire-and-forget; [mqtt_accepts] says whether the client returns or
    raises. *)
Definition mqtt_publish (env : Env) (topic payload : string)
    (options : PublishOptions) : M unit :=
  emit (EPublish topic payload options) ;;
  if mqtt_accepts env topic then ret tt else throw (BusError topic).

(** Modelled from the spec: [zigbee.ping(ieeeAddr, callback)] lives in
    lib/zigbee.js, which is not part of the sources.  It issues one probe
    and owes its callback one invocation, with an error or with nothing. *)
Definition zigbee_ping (addr : string) : M unit :=
  emit (EPing addr) ;; modify (set_probing (Some addr)).

(** ** The serial queue *)

(** The job pushed at lines 59-78, up to the probe's reply. *)
Definition job (addr : string) : M unit := zigbee_ping addr.

(** Modelled from the spec: the queue begins the oldest waiting job when it
    is not halted and no job is in flight. *)
Definition queue_drain : M unit :=
  q <- gets queue ;;
  if halted q then ret tt
  else match active q, jobs q with
       | None, addr :: rest =>
           modify (set_queue (λ _, mkQueue rest (Some addr) false)) ;;
           job addr
       | _, _ => ret tt
       end.

(** Modelled from the spec: [queue.push(job)] with [autostart] appends the
    job and drains. *)
Definition queue_push (addr : string) : M unit :=
  emit (EQueuePush addr) ;;
  modify (set_queue (λ q, mkQueue (jobs q ++ [addr]) (active q) (halted q))) ;;
  queue_drain.

(** Modelled from the spec: [queue.stop()] halts the queue; no job begins
    afterwards. *)
Definition queue_stop : M unit :=
  emit EQueueStop ;;
  modify (set_queue (λ q, mkQueue (jobs q) (active q) true)).

(** Modelled from the spec: the continuation handed to a job frees the slot
    and drains. *)
Definition queueCallback (addr : string) : M unit :=
  emit (EQueueCallback addr) ;;
  modify (set_queue (λ q, mkQueue (jobs q) None (halted q))) ;;
  queue_drain.

(** ** Runtime timers *)

Definition clearTimeout (handle : nat) : M unit :=
  emit (EClearTimeout handle) ;; modify (set_live (delete handle)).

Definition setTimeout (addr : string) (ms : Z) : M nat :=
  h <- gets next_handle ;;
  emit (ESetTimeout h addr ms) ;;
  modify (set_live (<[h := (addr, ms)]>)) ;;
  modify (set_next_handle S) ;;
  ret h.

(** [utils.secondsToMilliseconds] comes from lib/util/utils.js, which is not
    part of the sources; the handler is parametric in it. *)
Class Utils : Type := {
  secondsToMilliseconds : Z → Z;
}.

Section Handler.

Context {utils : Utils}.

(** The constructor, lines 11-27; its argument is
    [settings.get().experimental.availability_timeout]. *)
Definition construct (settings_availability_timeout : Z) : World :=
  mkWorld ∅ [] settings_availability_timeout (mkQueue [] None false)
          ∅ 0 None [].

(** [getAllPingableDevices()], lines 34-36. *)
Definition getAllPingableDevices (env : Env) : list Device :=
  List.filter (λ d, truthy (isPingable d)) (zigbee_getAllClients env).

(** [setTimer(ieeeAddr)], lines 81-89.  A handle is an object, hence
    truthy: the guard tests whether [this.timers] has the key. *)
Definition setTimer (addr : string) : M unit :=
  old <- gets (λ w, timers w !! addr) ;;
  match old with
  | Some h => clearTimeout h
  | None => ret tt
  end ;;
  seconds <- gets availability_timeout ;;
  h <- setTimeout addr (secondsToMilliseconds seconds) ;;
  modify (set_timers (<[addr := h]>)).

(** The name, topic and payload computed at lines 100-103. *)
Definition availability_name (env : Env) (addr : string) : jsval :=
  match settings_getDevice env addr with
  | Some deviceSettings => friendly_name deviceSettings
  | None => JStr addr
  end.

Definition availability_topic (env : Env) (addr : string) : string :=
  to_str (availability_name env addr) +:+ "/availability".

Definition availability_payload (available : bool) : string :=
  if available then "online" else "offline".

(** [publishAvailability(ieeeAddr, available)], lines 99-117. *)
Definition publishAvailability (env : Env) (addr : string)
    (available : bool) : M unit :=
  let deviceSettings := settings_getDevice env addr in
  let name := availability_name env addr in
  let topic := availability_topic env addr in
  let payload := availability_payload available in
  logger_debug ("Device information for " +:+ addr +:+ ": " +:+
                stringify_settings env deviceSettings) ;;
  (if truthy (js_and name (JBool (strict_eq name (JStr "big_lamp")))) then
     logger_debug ("First info: " +:+ addr +:+ ": " +:+
                   stringify_state env addr) ;;
     match shepherd_find env addr with
     | Some status =>
         logger_debug ("Second info: " +:+ addr +:+ ": " +:+ status)
     | None => ret tt
     end
   else ret tt) ;;
  mqtt_publish env topic payload (mkOptions true 0).

(** [!error] for what the registry hands to the probe callback. *)
Definition absent (error : option string) : bool :=
  match error with
  | Some _ => false
  | None => true
  end.

(** The callback handed to [zigbee.ping], lines 60-77.  The registry passes
    an error or nothing. *)
Definition pingCallback (env : Env) (addr : string) (error : option string)
    : M unit :=
  match error with
  | Some _ => logger_debug ("Failed to ping " +:+ addr)
  | None => logger_debug ("Sucesfully pinged " +:+ addr)
  end ;;
  publishAvailability env addr (absent error) ;;
  p <- gets pending ;;
  match indexOf p addr with
  | Some index => modify (set_pending (splice1 index))
  | None => ret tt
  end ;;
  setTimer addr ;;
  queueCallback addr.

(** [handleInterval(ieeeAddr)], lines 49-79. *)
Definition handleInterval (addr : string) : M unit :=
  p <- gets pending ;;
  if includes p addr then
    logger_debug ("Skipping ping for " +:+ addr +:+
                  " becuase job is already in queue")
  else
    modify (set_pending (λ l, l ++ [addr])) ;;
    queue_push addr.

Definition not_coordinator (d : Device) : bool :=
  negb (strict_eq (type d) (JStr "Coordinator")).

(** [onMQTTConnected()], lines 38-47. *)
Definition onMQTTConnected (env : Env) : M unit :=
  forEach (List.filter not_coordinator (zigbee_getDevices env))
          (λ device, publishAvailability env (ieeeAddr device) true) ;;
  forEach (getAllPingableDevices env)
          (λ device, setTimer (ieeeAddr device)).

(** [stop()], lines 91-97. *)
Definition stop (env : Env) : M unit :=
  queue_stop ;;
  forEach (List.filter not_coordinator (zigbee_getDevices env))
          (λ device, publishAvailability env (ieeeAddr device) false).

(** [isPingable] as called on what the registry resolved: reading [.type]
    of [undefined] raises. *)
Definition call_isPingable (device : option Device) : M jsval :=
  match device with
  | Some d => ret (isPingable d)
  | None => throw (TypeError "Cannot read property 'type' of undefined")
  end.

(** [onZigbeeMessage(message, device, mappedDevice)], lines 161-167;
    [device] is [None] when the argument is falsy. *)
Definition onZigbeeMessage (env : Env) (device : option Device) : M unit :=
  match device with
  | None => ret tt
  | Some dev =>
      eligible <- call_isPingable (zigbee_getDevice env (ieeeAddr dev)) ;;
      if truthy eligible then setTimer (ieeeAddr dev) else ret tt
  end.

(** ** The event loop

    Everything the handler does is a reaction to one of five stimuli. *)
Inductive Event : Type :=
| Connected
| TimerFired (handle : nat)
| ProbeReplied (error : option string)
| Message (device : option Device)
| Stopped.

(** One turn of the event loop; a timeout fires once and a probe replies
    once. *)
Definition step (env : Env) (ev : Event) (w : World) : World :=
  match ev with
  | Connected => snd (onMQTTConnected env w)
  | TimerFired h =>
      match live w !! h with
      | Some (addr, _) => snd (handleInterval addr (set_live (delete h) w))
      | None => w
      end
  | ProbeReplied error =>
      match probing w with
      | Some addr => snd (pingCallback env addr error (set_probing None w))
      | None => w
      end
  | Message device => snd (onZigbeeMessage env device w)
  | Stopped => snd (stop env w)
  end.

Fixpoint run (evs : list (Env * Event)) (w : World) : World :=
  match evs with
  | [] => w
  | (env, ev) :: rest => run rest (step env ev w)
  end.

(** States the handler can be in when it was constructed with the given
    configured timeout. *)
Definition reachable (timeout : Z) (w : World) : Prop :=
  ∃ evs, w = run evs (construct timeout).

(** ** Observations on worlds and traces *)

(** The world after the given calls were appended to the trace. *)
Definition log (es : list Effect) (w : World) : World :=
  set_trace (λ t, t ++ es) w.

Definition is_debug (e : Effect) : bool :=
  match e with EDebug _ => true | _ => false end.
Definition is_publish (e : Effect) : bool :=
  match e with EPublish _ _ _ => true | _ => false end.
Definition is_push (e : Effect) : bool :=
  match e with EQueuePush _ => true | _ => false end.
Definition is_ping (e : Effect) : bool :=
  match e with EPing _ => true | _ => false end.
Definition is_callback (e : Effect) : bool :=
  match e with EQueueCallback _ => true | _ => false end.

(** The address a [setTimeout] call captured, if the call is one. *)
Definition armed_addr (e : Effect) : option string :=
  match e with ESetTimeout _ addr _ => Some addr | _ => None end.

(** The log lines [publishAvailability] writes before it publishes. *)
Definition availability_log (env : Env) (addr : string) : list Effect :=
  EDebug ("Device information for " +:+ addr +:+ ": " +:+
          stringify_settings env (settings_getDevice env addr)) ::
  (if truthy (js_and (availability_name env addr)
                (JBool (strict_eq (availability_name env addr)
                                  (JStr "big_lamp"))))
   then EDebug ("First info: " +:+ addr +:+ ": " +:+
                stringify_state env addr) ::
        match shepherd_find env addr with
        | Some status =>
            [EDebug ("Second info: " +:+ addr +:+ ": " +:+ status)]
        | None => []
        end
   else []).

(** The one bus call of [publishAvailability]. *)
Definition availability_message (env : Env) (addr : string)
    (available : bool) : Effect :=
  EPublish (availability_topic env addr) (availability_payload available)
           (mkOptions true 0).

Definition availability_effects (env : Env) (addr : string)
    (available : bool) : list Effect :=
  availability_log env addr ++ [availability_message env addr available].

Definition bus_outcome (env : Env) (addr : string) : outcome unit :=
  if mqtt_accepts env (availability_topic env addr) then Returned tt
  else Thrown (BusError (availability_topic env addr)).

(** A bus that never raises. *)
Definition reliable_bus (env : Env) : Prop :=
  ∀ topic, mqtt_accepts env topic = true.

(** The calls [setTimer] makes. *)
Definition timer_effects (addr : string) (w : World) : list Effect :=
  match timers w !! addr with
  | Some h => [EClearTimeout h]
  | None => []
  end ++
  [ESetTimeout (next_handle w) addr
               (secondsToMilliseconds (availability_timeout w))].

(** The runtime's timeouts once [setTimer] has cancelled the old one. *)
Definition cancelled (addr : string) (w : World) : gmap nat (string * Z) :=
  match timers w !! addr with
  | Some h => delete h (live w)
  | None => live w
  end.

(** The handler's timer book-keeping is consistent with the runtime: a live
    timeout is the one recorded for its address, runs for the configured
    quiet period, and its handle has been handed out. *)
Definition timers_ok (timeout : Z) (w : World) : Prop :=
  availability_timeout w = timeout ∧
  (∀ h addr ms, live w !! h = Some (addr, ms) →
     timers w !! addr = Some h ∧ ms = secondsToMilliseconds timeout) ∧
  (∀ addr h, timers w !! addr = Some h → h < next_handle w) ∧
  (∀ a b h, timers w !! a = Some h → timers w !! b = Some h → a = b).

(** An address has a live timeout. *)
Definition has_timer (addr : string) (w : World) : Prop :=
  ∃ h ms, live w !! h = Some (addr, ms).

(** What a job slot holds, as a list. *)
Definition slot (q : Queue) : list string :=
  match active q with
  | Some addr => [addr]
  | None => []
  end.

(** The pending list mirrors the queue, and an owed probe reply belongs to
    the job in flight. *)
Definition queue_ok (w : World) : Prop :=
  pending w = slot (queue w) ++ jobs (queue w) ∧
  ∀ addr, probing w = Some addr → active (queue w) = Some addr.

(** The probe the queue begins when it drains, if any. *)
Definition starts (w : World) : list Effect :=
  if halted (queue w) then []
  else match active (queue w), jobs (queue w) with
       | None, addr :: _ => [EPing addr]
       | _, _ => []
       end.

(** A property of worlds that a computation cannot break, whether it
    returns or raises. *)
Definition stable {A} (P : World → Prop) (m : M A) : Prop :=
  ∀ w, P w → P (snd (m w)).

(** What draining may add to the trace: nothing, or the probe of the job it
    begins; nothing at all once the queue is halted. *)
Definition drain_effects (q : Queue) (es : list Effect) : Prop :=
  (es = [] ∨ ∃ addr, es = [EPing addr] ∧ halted q = false).

(** The pending list once lines 70-73 have run. *)
Definition remove_first (addr : string) (l : list string) : list string :=
  match indexOf l addr with
  | Some index => splice1 index l
  | None => l
  end.

(** The first log line of the probe callback. *)
Definition probe_log (addr : string) (error : option string) : Effect :=
  match error with
  | Some _ => EDebug ("Failed to ping " +:+ addr)
  | None => EDebug ("Sucesfully pinged " +:+ addr)
  end.

(** The log line of a skipped timer callback. *)
Definition skip_log (addr : string) : Effect :=
  EDebug ("Skipping ping for " +:+ addr +:+
          " becuase job is already in queue").

(** The invariant of the event loop. *)
Definition Inv (timeout : Z) (w : World) : Prop :=
  NoDup (pending w) ∧ timers_ok timeout w ∧ queue_ok w.

(** Whether the sender of a message resolves, in the registry, to a device
    [isPingable] accepts. *)
Definition resolved_eligible (env : Env) (device : option Device) : bool :=
  match device with
  | Some dev =>
      match zigbee_getDevice env (ieeeAddr dev) with
      | Some d => truthy (isPingable d)
      | None => false
      end
  | None => false
  end.

(** No friendly name is configured for an address: there is no settings
    entry, or the entry has no [friendly_name]. *)
Definition unnamed (env : Env) (addr : string) : Prop :=
  match settings_getDevice env addr with
  | Some entry => friendly_name entry = JUndefined
  | None => True
  end.

(** The queue is halted and the probes begun so far are the given ones. *)
Definition halted_with (pings : list Effect) (w : World) : Prop :=
  halted (queue w) = true ∧ List.filter is_ping (trace w) = pings.


(** Every address the handler keeps a timer entry for is still being
    watched: its timeout is live, or a probe of it is pending. *)
Definition monitored (w : World) : Prop :=
  ∀ addr, is_Some (timers w !! addr) → has_timer addr w ∨ addr ∈ pending w.


(** An address is eligible under a registry when a client with that address
    is accepted by [isPingable], or the address resolves to a device that
    is. *)
Definition eligible_address (env : Env) (addr : string) : Prop :=
  (∃ d, d ∈ zigbee_getAllClients env ∧ ieeeAddr d = addr ∧
        isPingable d = JBool true) ∨
  (∃ d, zigbee_getDevice env addr = Some d ∧ isPingable d = JBool true).

(** The address a timer, queue or probe call is about. *)
Definition addressed (e : Effect) : option string :=
  match e with
  | ESetTimeout _ addr _ | EQueuePush addr | EPing addr
  | EQueueCallback addr => Some addr
  | _ => None
  end.

(** Timers, pending entries and calls are all about eligible addresses. *)
Definition only_eligible (env : Env) (w : World) : Prop :=
  (∀ addr, is_Some (timers w !! addr) → eligible_address env addr) ∧
  (∀ addr, addr ∈ pending w → eligible_address env addr) ∧
  (∀ addr, addr ∈ omap addressed (trace w) → eligible_address env addr).


(** A call is a log line or a bus call. *)
Definition is_report (e : Effect) : bool := is_debug e || is_publish e.


(** What every call of the handler looks like: a bus call is retained, of
    qos 0, carries ['online'] or ['offline'] and goes to a topic that ends in
    ['/availability']; a timeout runs for the configured period. *)
Definition well_formed_call (timeout : Z) (e : Effect) : Prop :=
  match e with
  | EPublish topic payload options =>
      options = mkOptions true 0 ∧
      (payload = "online" ∨ payload = "offline") ∧
      ∃ name, topic = name +:+ "/availability"
  | ESetTimeout _ _ ms => ms = secondsToMilliseconds timeout
  | _ => True
  end.

(** The job in flight has had its reply and has not freed the slot. *)
Definition stalled (w : World) : Prop :=
  probing w = None ∧ is_Some (active (queue w)).


(** Probes begun and not yet completed, by the trace, against the slot. *)
Definition balanced (w : World) : Prop :=
  length (List.filter is_ping (trace w)) =
  length (List.filter is_callback (trace w)) + length (slot (queue w)).


(** ** Who is published for, turn by turn *)








End Handler.

(** ** A sample installation

    A coordinator, a mains-powered router, a battery-powered router and a
    device of the overridden model whose power source is not reported. *)

Definition sample_utils : Utils :=
  {| secondsToMilliseconds := λ seconds, (seconds * 1000)%Z |}.

Definition devA : Device :=
  mkDevice "0xA" (JStr "Coordinator") JUndefined JUndefined JUndefined.
Definition devB : Device :=
  mkDevice "0xB" (JStr "Router") (JStr "Mains (single phase)")
           (JNum 4476) (JStr "TRADFRI bulb E27").
Definition devC : Device :=
  mkDevice "0xC" (JStr "Router") (JStr "Battery")
           (JNum 4476) (JStr "TRADFRI remote control").
Definition devD : Device :=
  mkDevice "0xD" (JStr "Router") JUndefined (JNum 4448) (JStr "E11-G13").

Definition sample_registry (addr : string) : option Device :=
  if String.eqb addr "0xA" then Some devA
  else if String.eqb addr "0xB" then Some devB
  else if String.eqb addr "0xC" then Some devC
  else None.

(** Only the bulb has a settings entry. *)
Definition sample_settings (addr : string) : option DeviceSettings :=
  if String.eqb addr "0xB" then Some (mkSettings (JStr "lamp")) else None.

Definition sample_env : Env :=
  mkEnv [devA; devB; devC] [devB; devC] sample_registry sample_settings
        (λ _, "{}") (λ _, "{}") (λ _, None) (λ _, true).

(** The same installation with a bus client that raises. *)
Definition broken_bus_env : Env :=
  mkEnv [devA; devB; devC] [devB; devC] sample_registry sample_settings
        (λ _, "{}") (λ _, "{}") (λ _, None) (λ _, false).

(** The same installation where the bulb's settings entry carries no
    [friendly_name]. *)
Definition unnamed_env : Env :=
  mkEnv [devA; devB; devC] [devB; devC] sample_registry
        (λ addr, if String.eqb addr "0xB" then Some (mkSettings JUndefined)
                 else None)
        (λ _, "{}") (λ _, "{}") (λ _, None) (λ _, true).

(** After start-up the bulb's timer fired: its probe is in flight. *)
Definition sample_probing : World :=
  @run sample_utils [(sample_env, Connected); (sample_env, TimerFired 0)]
       (construct 60).

(** ** [stringifyOnce], lines 119-159

    [stringifyOnce] hands [JSON.stringify] a replacer that remembers the
    values it has seen.  The traversal itself belongs to the runtime; what
    is embedded here is the replacer and the two arrays it closes over. *)

(** What line 144 finds in [value.constructor]: a falsy value, or something
    truthy, known by what its [name] property holds.  For a function that is
    a string; for the property of a plain object that happens to be called
    ['constructor'] it need not be, and is usually [undefined].  A [name]
    that is itself an object is not covered. *)
Inductive Constructor : Type :=
| NoConstructor
| SomeConstructor (name : jsval).

(** What a replacer can be handed: a primitive, an object (known by its
    identity, with what its [constructor] property holds) or a function. *)
Inductive Value : Type :=
| VPrim (v : jsval)
| VObject (ref : nat) (constructor : Constructor)
| VFunction (ref : nat).

(** [String.prototype.toLowerCase] is taken as given. *)
Class StringBuiltins : Type := {
  toLowerCase : string → string;
}.

(** [typeof(value)] *)
Definition typeof (value : Value) : string :=
  match value with
  | VPrim JUndefined => "undefined"
  | VPrim JNull => "object"
  | VPrim (JBool _) => "boolean"
  | VPrim (JNum _) => "number"
  | VPrim (JStr _) => "string"
  | VObject _ _ => "object"
  | VFunction _ => "function"
  end.

(** [a === b]: primitives by value, objects and functions by identity. *)
Definition value_strict_eq (a b : Value) : bool :=
  match a, b with
  | VPrim x, VPrim y => strict_eq x y
  | VObject r _, VObject r' _ => Nat.eqb r r'
  | VFunction r, VFunction r' => Nat.eqb r r'
  | _, _ => false
  end.

(** [printedObjects] and [printedObjectKeys], lines 120-121. *)
Record Printed : Type := mkPrinted {
  printedObjects : list Value;
  printedObjectKeys : list string;
}.

Definition nothing_printed : Printed := mkPrinted [] [].

(** The loop at lines 128-132: [printedObjIndex] ends up as the index of the
    last element that is [===] to the value, or stays [false] ([None]). *)
Fixpoint forEach_index (value : Value) (l : list Value) (index : nat)
    (printedObjIndex : option nat) : option nat :=
  match l with
  | [] => printedObjIndex
  | obj :: rest =>
      forEach_index value rest (S index)
        (if value_strict_eq obj value then Some index else printedObjIndex)
  end.

Section StringifyOnce.

Context {builtins : StringBuiltins}.

(** [name.toLowerCase()]: a string is lowered; reading the property of
    [undefined] or [null] raises, and so does calling what a boolean or a
    number has under that property, which is [undefined]. *)
Definition name_toLowerCase (name : jsval) : outcome string :=
  match name with
  | JStr s => Returned (toLowerCase s)
  | JUndefined =>
      Thrown (TypeError "Cannot read property 'toLowerCase' of undefined")
  | JNull => Thrown (TypeError "Cannot read property 'toLowerCase' of null")
  | JBool _ | JNum _ =>
      Thrown (TypeError "value.constructor.name.toLowerCase is not a function")
  end.

(** The type named at line 144; it is evaluated for [null] and for objects
    only, the guard at line 140 having tested [typeof(value)]. *)
Definition type_name (value : Value) : outcome string :=
  match value with
  | VObject _ (SomeConstructor name) => name_toLowerCase name
  | _ => Returned (typeof value)
  end.

(** [printedObjectKeys[index]] inside a string concatenation. *)
Definition key_text (keys : list string) (index : nat) : string :=
  match keys !! index with
  | Some k => k
  | None => "undefined"
  end.

(** Lines 148-155: record the value under its key and hand it to the
    caller's replacer, if there is one. *)
Definition record_value (replacer : option (string → Value → Value))
    (key : string) (value : Value) (st : Printed)
    : outcome Value * Printed :=
  let qualifiedKey := if String.eqb key "" then "(empty key)" else key in
  (Returned match replacer with
            | Some f => f key value
            | None => value
            end,
   mkPrinted (printedObjects st ++ [value])
             (printedObjectKeys st ++ [qualifiedKey])).

(** [printOnceReplacer(key, value)], lines 123-157; [obj] and [replacer] are
    the arguments of the enclosing [stringifyOnce]. *)
Definition printOnceReplacer (obj : Value)
    (replacer : option (string → Value → Value))
    (key : string) (value : Value) (st : Printed)
    : outcome Value * Printed :=
  if (2000 <? length (printedObjects st))%nat then
    (Returned (VPrim (JStr "object too long")), st)
  else
    let printedObjIndex := forEach_index value (printedObjects st) 0 None in
    if String.eqb key "" then
      (Returned value, mkPrinted (printedObjects st ++ [obj])
                                 (printedObjectKeys st ++ ["root"]))
    else
      match printedObjIndex with
      | Some index =>
          if String.eqb (typeof value) "object" then
            if bool_decide (printedObjectKeys st !! index = Some "root") then
              (Returned (VPrim (JStr "(pointer to root)")), st)
            else
              match type_name value with
              | Returned type =>
                  (Returned
                     (VPrim (JStr ("(see " +:+ type +:+ " with key " +:+
                                   key_text (printedObjectKeys st) index +:+
                                   ")"))),
                   st)
              | Thrown e => (Thrown e, st)
              end
          else record_value replacer key value st
      | None => record_value replacer key value st
      end.

(** The replacer called on a sequence of keys and values, as the traversal
    does; the results are collected in order, and an exception ends the
    traversal. *)
Fixpoint replay (obj : Value) (replacer : option (string → Value → Value))
    (calls : list (string * Value)) (st : Printed)
    : outcome (list Value) * Printed :=
  match calls with
  | [] => (Returned [], st)
  | (key, value) :: rest =>
      match printOnceReplacer obj replacer key value st with
      | (Returned v, st') =>
          match replay obj replacer rest st' with
          | (Returned vs, st'') => (Returned (v :: vs), st'')
          | (Thrown e, st'') => (Thrown e, st'')
          end
      | (Thrown e, st') => (Thrown e, st')
      end
  end.

End StringifyOnce.

(** ASCII lower-casing, for the sample checks. *)
Definition ascii_lower (c : Ascii.ascii) : Ascii.ascii :=
  let n := Ascii.nat_of_ascii c in
  if ((65 <=? n) && (n <=? 90))%nat then Ascii.ascii_of_nat (n + 32) else c.

Fixpoint string_lower (s : string) : string :=
  match s with
  | EmptyString => EmptyString
  | String c rest => String (ascii_lower c) (string_lower rest)
  end.

Definition sample_builtins : StringBuiltins :=
  {| toLowerCase := string_lower |}.


(** The two arrays have grown together and hold at most 2001 entries. *)
Definition in_step (st : Printed) : Prop :=
  length (printedObjects st) = length (printedObjectKeys st) ∧
  (length (printedObjects st) ≤ 2001)%nat.

(** The root object has been recorded, and only ever under ['root']. *)
Definition root_recorded (obj : Value) (st : Printed) : Prop :=
  (∃ i x, printedObjects st !! i = Some x ∧ value_strict_eq x obj = true) ∧
  ∀ i x, printedObjects st !! i = Some x → value_strict_eq x obj = true →
         printedObjectKeys st !! i = Some "root".


(** A small traversal: the root, a map under ['a'] and the map again. *)
Definition sample_root : Value := VObject 0 (SomeConstructor (JStr "Object")).
Definition sample_map : Value := VObject 1 (SomeConstructor (JStr "Map")).

(** A plain object with a property called ['constructor'] that holds a
    string, which has no [name]. *)
Definition sample_plain : Value := VObject 2 (SomeConstructor JUndefined).
Definition sample_printed : Printed :=
  mkPrinted [sample_root; sample_map] ["root"; "a"].

(** More values than the replacer is willing to record. *)
Definition sample_saturated : Printed :=
  mkPrinted (repeat (VPrim (JNum 0)) 2001) (repeat "n" 2001).


(** * Properties *)

Section Properties.

Context {utils : Utils}.

Lemma strict_eq_true a b : strict_eq a b = true ↔ a = b.
Proof. unfold strict_eq. apply bool_decide_eq_true. Qed.

Lemma strict_eq_false a b : strict_eq a b = false ↔ a ≠ b.
Proof. unfold strict_eq. apply bool_decide_eq_false. Qed.

Lemma isPingable_boolean d : isPingable d = JBool (pingable d).
Proof.
  unfold isPingable, pingable, js_or, js_and.
  destruct (strict_eq (type d) (JStr "Router")); simpl.
  - destruct (truthy (powerSource d)) eqn:Hp; simpl.
    + destruct (strict_eq (powerSource d) (JStr "Battery")); simpl; [|done].
      by destruct (strict_eq (manufId d) (JNum 4448)).
    + rewrite Hp. by destruct (strict_eq (manufId d) (JNum 4448)).
  - by destruct (strict_eq (manufId d) (JNum 4448)).
Qed.

Lemma pingable_true_iff d :
  pingable d = true ↔ mains_router d ∨ override_model d.
Proof.
  unfold pingable, mains_router, override_model.
  rewrite orb_true_iff, !andb_true_iff, negb_true_iff.
  rewrite !strict_eq_true, strict_eq_false. tauto.
Qed.

Lemma truthy_isPingable d : truthy (isPingable d) = pingable d.
Proof. by rewrite isPingable_boolean. Qed.

(** ** The monad *)

Lemma bind_returned {A B} (m : M A) (k : A → M B) w a :
  fst (m w) = Returned a → bind m k w = k a (snd (m w)).
Proof. unfold bind. destruct (m w) as [[x|e] w']; cbn; congruence. Qed.

Lemma bind_thrown {A B} (m : M A) (k : A → M B) w e :
  fst (m w) = Thrown e → bind m k w = (Thrown e, snd (m w)).
Proof. unfold bind. destruct (m w) as [[x|e'] w']; cbn; congruence. Qed.

Lemma stable_bind {A B} P (m : M A) (k : A → M B) :
  stable P m → (∀ a, stable P (k a)) → stable P (bind m k).
Proof.
  intros Hm Hk w Hw. unfold bind. specialize (Hm w Hw).
  destruct (m w) as [[a|e] w']; cbn in *; [by apply Hk | done].
Qed.

Lemma stable_ret {A} P (a : A) : stable P (ret a).
Proof. by intros w Hw. Qed.

Lemma stable_forEach {X} P (l : list X) (f : X → M unit) :
  (∀ x, stable P (f x)) → stable P (forEach l f).
Proof.
  intros Hf. induction l as [|x l IH]; cbn.
  - apply stable_ret.
  - apply stable_bind; [apply Hf | intros _; apply IH].
Qed.

Lemma log_log es1 es2 w : log es2 (log es1 w) = log (es1 ++ es2) w.
Proof. unfold log, set_trace; cbn. by rewrite app_assoc. Qed.

Lemma log_nil w : log [] w = w.
Proof. destruct w. unfold log, set_trace; cbn. by rewrite app_nil_r. Qed.

(** ** [publishAvailability] *)

Lemma publishAvailability_run env a b w :
  publishAvailability env a b w =
  (bus_outcome env a, log (availability_effects env a b) w).
Proof.
  unfold publishAvailability, mqtt_publish, logger_debug, bus_outcome,
    availability_effects, availability_log, availability_message.
  unfold bind, emit, modify, ret, throw.
  destruct (truthy _); [destruct (shepherd_find env a)|];
    destruct (mqtt_accepts env _); cbn; unfold log, set_trace; cbn;
    rewrite <- ?app_assoc; reflexivity.
Qed.

Lemma availability_log_debug env a :
  Forall (λ e, is_debug e = true) (availability_log env a).
Proof.
  unfold availability_log. constructor; [done|].
  destruct (truthy _); [|constructor].
  constructor; [done|]. destruct (shepherd_find env a); repeat constructor.
Qed.

Lemma filter_debug_nil (p : Effect → bool) es :
  (∀ msg, p (EDebug msg) = false) →
  Forall (λ e, is_debug e = true) es → List.filter p es = [].
Proof.
  intros Hp. induction 1 as [|e es He _ IH]; [done|].
  destruct e; try discriminate. cbn. by rewrite Hp.
Qed.

Lemma publishes_of_availability env a b :
  List.filter is_publish (availability_effects env a b) =
  [availability_message env a b].
Proof.
  unfold availability_effects. rewrite List.filter_app.
  rewrite (filter_debug_nil is_publish); [done|done|].
  apply availability_log_debug.
Qed.

Lemma silent_availability (p : Effect → bool) env a b :
  (∀ msg, p (EDebug msg) = false) →
  (∀ t pl o, p (EPublish t pl o) = false) →
  List.filter p (availability_effects env a b) = [].
Proof.
  intros Hd Hp. unfold availability_effects, availability_message.
  rewrite List.filter_app, (filter_debug_nil p); cbn;
    [by rewrite Hp | done | apply availability_log_debug].
Qed.

(** ** [setTimer] *)

Lemma setTimer_returns a w : fst (setTimer a w) = Returned tt.
Proof.
  unfold setTimer, clearTimeout, setTimeout, bind, gets, modify, emit,
    modify, ret.
  by destruct (timers w !! a).
Qed.

Lemma setTimer_fields a w :
  let w' := snd (setTimer a w) in
  timers w' = <[a := next_handle w]> (timers w) ∧
  live w' = <[next_handle w :=
               (a, secondsToMilliseconds (availability_timeout w))]>
              (cancelled a w) ∧
  next_handle w' = S (next_handle w) ∧
  pending w' = pending w ∧ queue w' = queue w ∧
  probing w' = probing w ∧
  availability_timeout w' = availability_timeout w ∧
  trace w' = trace w ++ timer_effects a w.
Proof.
  unfold setTimer, clearTimeout, setTimeout, bind, gets, modify, emit,
    modify, ret, cancelled, timer_effects.
  destruct (timers w !! a); cbn; rewrite <- ?app_assoc; repeat split; done.
Qed.

Lemma timer_effects_armed a w :
  omap armed_addr (timer_effects a w) = [a].
Proof. unfold timer_effects. by destruct (timers w !! a). Qed.

Lemma timer_effects_silent (p : Effect → bool) a w :
  (∀ h, p (EClearTimeout h) = false) →
  (∀ h b ms, p (ESetTimeout h b ms) = false) →
  List.filter p (timer_effects a w) = [].
Proof.
  intros Hc Hs. unfold timer_effects.
  destruct (timers w !! a); cbn; by rewrite ?Hc, ?Hs.
Qed.

(** ** The queue *)

Lemma queue_drain_returns w : fst (queue_drain w) = Returned tt.
Proof.
  unfold queue_drain, job, zigbee_ping, bind, gets, modify, emit, modify, ret.
  destruct (halted (queue w)); [done|].
  by destruct (active (queue w)), (jobs (queue w)).
Qed.

Lemma queue_drain_fields w :
  let w' := snd (queue_drain w) in
  timers w' = timers w ∧ live w' = live w ∧
  next_handle w' = next_handle w ∧ pending w' = pending w ∧
  availability_timeout w' = availability_timeout w ∧
  halted (queue w') = halted (queue w) ∧
  slot (queue w') ++ jobs (queue w') = slot (queue w) ++ jobs (queue w) ∧
  (∃ es, trace w' = trace w ++ es ∧ drain_effects (queue w) es) ∧
  ((∀ a, probing w = Some a → active (queue w) = Some a) →
   ∀ a, probing w' = Some a → active (queue w') = Some a).
Proof.
  unfold queue_drain, job, zigbee_ping, bind, gets, modify, emit, modify, ret,
    slot, drain_effects.
  destruct (halted (queue w)) eqn:Hh; cbn.
  { repeat split; try done. exists []. by rewrite app_nil_r; auto. }
  destruct (active (queue w)) as [b|] eqn:Ha; cbn.
  { rewrite Ha. repeat split; try done. exists [].
    by rewrite app_nil_r; auto. }
  destruct (jobs (queue w)) as [|c rest] eqn:Hj; cbn.
  { rewrite Ha, Hj. repeat split; try done. exists [].
    by rewrite app_nil_r; auto. }
  repeat split; try done. exists [EPing c]. eauto.
Qed.

Lemma queue_push_unfold a w :
  queue_push a w =
  queue_drain
    (set_queue (λ q, mkQueue (jobs q ++ [a]) (active q) (halted q))
               (log [EQueuePush a] w)).
Proof. reflexivity. Qed.

Lemma queueCallback_unfold a w :
  queueCallback a w =
  queue_drain
    (set_queue (λ q, mkQueue (jobs q) None (halted q))
               (log [EQueueCallback a] w)).
Proof. reflexivity. Qed.

Lemma queue_push_returns a w : fst (queue_push a w) = Returned tt.
Proof. rewrite queue_push_unfold. apply queue_drain_returns. Qed.

Lemma queue_push_fields a w :
  let w' := snd (queue_push a w) in
  timers w' = timers w ∧ live w' = live w ∧
  next_handle w' = next_handle w ∧ pending w' = pending w ∧
  availability_timeout w' = availability_timeout w ∧
  halted (queue w') = halted (queue w) ∧
  slot (queue w') ++ jobs (queue w') =
    (slot (queue w) ++ jobs (queue w)) ++ [a] ∧
  (∃ es, trace w' = trace w ++ EQueuePush a :: es ∧
         drain_effects (queue w) es) ∧
  ((∀ b, probing w = Some b → active (queue w) = Some b) →
   ∀ b, probing w' = Some b → active (queue w') = Some b).
Proof.
  rewrite queue_push_unfold.
  match goal with |- context [queue_drain ?x] =>
    destruct (queue_drain_fields x) as (H1&H2&H3&H4&H5&H6&H7&(es&H8&H9)&H10)
  end.
  cbv zeta. rewrite H1, H2, H3, H4, H5, H6, H7.
  repeat split; try done.
  - unfold slot; cbn. by rewrite app_assoc.
  - exists es. split; [|done]. rewrite H8. cbn. by rewrite <- app_assoc.
Qed.

Lemma queueCallback_returns a w : fst (queueCallback a w) = Returned tt.
Proof. rewrite queueCallback_unfold. apply queue_drain_returns. Qed.

Lemma queueCallback_fields a w :
  let w' := snd (queueCallback a w) in
  timers w' = timers w ∧ live w' = live w ∧
  next_handle w' = next_handle w ∧ pending w' = pending w ∧
  availability_timeout w' = availability_timeout w ∧
  halted (queue w') = halted (queue w) ∧
  slot (queue w') ++ jobs (queue w') = jobs (queue w) ∧
  (∃ es, trace w' = trace w ++ EQueueCallback a :: es ∧
         drain_effects (queue w) es) ∧
  (probing w = None →
   ∀ b, probing w' = Some b → active (queue w') = Some b).
Proof.
  rewrite queueCallback_unfold.
  match goal with |- context [queue_drain ?x] =>
    destruct (queue_drain_fields x) as (H1&H2&H3&H4&H5&H6&H7&(es&H8&H9)&H10)
  end.
  cbv zeta. rewrite H1, H2, H3, H4, H5, H6, H7.
  repeat split; try done.
  - exists es. split; [|done]. rewrite H8. cbn. by rewrite <- app_assoc.
  - intros Hp. apply H10. cbn. intros b Hb. congruence.
Qed.

(** ** Arrays of addresses *)

Lemma includes_true l a : includes l a = true ↔ a ∈ l.
Proof.
  induction l as [|x l IH]; cbn.
  - split; [done | by intros ?%elem_of_nil].
  - destruct (String.eqb_spec x a) as [->|Hne].
    + split; [intros _; left | done].
    + rewrite IH. split; [by right|].
      intros [?|?]%elem_of_cons; [congruence | done].
Qed.

Lemma includes_false l a : includes l a = false ↔ a ∉ l.
Proof. rewrite <- includes_true. by destruct (includes l a). Qed.

Lemma remove_first_cons a x l :
  remove_first a (x :: l) =
  if String.eqb x a then l else x :: remove_first a l.
Proof.
  unfold remove_first, splice1; cbn.
  destruct (String.eqb x a); [by rewrite drop_0|].
  by destruct (indexOf l a).
Qed.

Lemma remove_first_subset a l x : x ∈ remove_first a l → x ∈ l.
Proof.
  induction l as [|y l IH]; [done|].
  rewrite remove_first_cons. destruct (String.eqb y a).
  - by right.
  - intros [->|?]%elem_of_cons; [left | right; auto].
Qed.

Lemma remove_first_NoDup a l : NoDup l → NoDup (remove_first a l).
Proof.
  induction 1 as [|y l Hy Hl IH]; [constructor|].
  rewrite remove_first_cons. destruct (String.eqb y a); [done|].
  constructor; [|done]. intros ?%remove_first_subset. done.
Qed.


Lemma remove_first_head a l : remove_first a (a :: l) = l.
Proof. by rewrite remove_first_cons, String.eqb_refl. Qed.

(** ** [handleInterval] *)

Lemma handleInterval_skip a w :
  includes (pending w) a = true →
  handleInterval a w = (Returned tt, log [skip_log a] w).
Proof.
  intros H. unfold handleInterval, bind, gets. cbn. by rewrite H.
Qed.

Lemma handleInterval_submit a w :
  includes (pending w) a = false →
  handleInterval a w = queue_push a (set_pending (λ l, l ++ [a]) w).
Proof.
  intros H. unfold handleInterval, bind at 1, gets. cbn. by rewrite H.
Qed.

Lemma handleInterval_returns a w : fst (handleInterval a w) = Returned tt.
Proof.
  destruct (includes (pending w) a) eqn:H.
  - by rewrite handleInterval_skip.
  - rewrite handleInterval_submit by done. apply queue_push_returns.
Qed.

(** ** The probe callback *)

Lemma probe_logged a e w :
  snd (match e with
       | Some _ => logger_debug ("Failed to ping " +:+ a)
       | None => logger_debug ("Sucesfully pinged " +:+ a)
       end w) = log [probe_log a e] w.
Proof. by destruct e. Qed.

Lemma forget_pending a (k : unit → M unit) w :
  bind match indexOf (pending w) a with
       | Some index => modify (set_pending (splice1 index))
       | None => ret tt
       end k w = k tt (set_pending (remove_first a) w).
Proof.
  unfold bind, remove_first, modify, ret, set_pending.
  destruct (indexOf (pending w) a); cbn; [done|]. by destruct w.
Qed.

Lemma pingCallback_raises env a e w :
  mqtt_accepts env (availability_topic env a) = false →
  pingCallback env a e w =
  (Thrown (BusError (availability_topic env a)),
   log (probe_log a e :: availability_effects env a (absent e)) w).
Proof.
  intros H. unfold pingCallback.
  rewrite (bind_returned _ _ _ tt) by (by destruct e).
  rewrite (bind_thrown _ _ _ (BusError (availability_topic env a)));
    rewrite publishAvailability_run; unfold bus_outcome; rewrite H; [|done].
  cbn [snd]. by rewrite probe_logged, log_log.
Qed.

Lemma pingCallback_completes env a e w :
  mqtt_accepts env (availability_topic env a) = true →
  pingCallback env a e w =
  queueCallback a
    (snd (setTimer a
       (set_pending (remove_first a)
          (log (probe_log a e :: availability_effects env a (absent e)) w)))).
Proof.
  intros H. unfold pingCallback.
  rewrite (bind_returned _ _ _ tt) by (by destruct e).
  rewrite (bind_returned _ _ _ tt);
    rewrite publishAvailability_run; unfold bus_outcome; rewrite H; [|done].
  cbn [snd]. rewrite probe_logged, log_log. cbn [app].
  set (w1 := log _ w).
  unfold bind at 1, gets. cbn [fst snd].
  rewrite forget_pending.
  by rewrite (bind_returned _ _ _ tt) by apply setTimer_returns.
Qed.

(** ** The invariant *)

Lemma Inv_construct timeout : Inv timeout (construct timeout).
Proof.
  repeat split; cbn; try done. constructor.
Qed.

Lemma timers_ok_frame timeout w w' :
  timers w' = timers w → live w' = live w →
  next_handle w' = next_handle w →
  availability_timeout w' = availability_timeout w →
  timers_ok timeout w → timers_ok timeout w'.
Proof. unfold timers_ok. by intros -> -> -> ->. Qed.

Lemma Inv_frame timeout w w' :
  pending w' = pending w → timers w' = timers w → live w' = live w →
  next_handle w' = next_handle w →
  availability_timeout w' = availability_timeout w →
  active (queue w') = active (queue w) → jobs (queue w') = jobs (queue w) →
  probing w' = probing w →
  Inv timeout w → Inv timeout w'.
Proof.
  intros Hp Ht Hl Hn Ha Hq1 Hq2 Hb (H1 & H2 & (H4 & H5)).
  split; [by rewrite Hp|]. split; [by eapply timers_ok_frame|].
  unfold queue_ok, slot. by rewrite Hp, Hq1, Hq2, Hb.
Qed.

Lemma Inv_log timeout es w : Inv timeout w → Inv timeout (log es w).
Proof. by apply Inv_frame. Qed.

Lemma timers_ok_setTimer timeout a w :
  timers_ok timeout w → timers_ok timeout (snd (setTimer a w)).
Proof.
  intros (Ha & Hl & Hlt & Hinj).
  destruct (setTimer_fields a w) as (Ht & Hlive & Hn & _ & _ & _ & Hto & _).
  split; [congruence|]. rewrite Ht, Hlive, Hn, Ha. split; [|split].
  - intros h b ms.
    destruct (decide (next_handle w = h)) as [<-|Hne].
    + rewrite lookup_insert_eq. intros [= <- <-].
      by rewrite lookup_insert_eq.
    + rewrite lookup_insert_ne by done. intros Hc.
      assert (Hw : live w !! h = Some (b, ms)).
      { unfold cancelled in Hc. destruct (timers w !! a); [|done].
        by apply lookup_delete_Some in Hc as [_ ?]. }
      destruct (Hl _ _ _ Hw) as (Hb & ->). split; [|done].
      destruct (decide (a = b)) as [->|Hab]; [|by rewrite lookup_insert_ne].
      unfold cancelled in Hc. rewrite Hb in Hc.
      by rewrite lookup_delete_eq in Hc.
  - intros b h. destruct (decide (a = b)) as [->|Hab].
    + rewrite lookup_insert_eq. intros [= <-]. lia.
    + rewrite lookup_insert_ne by done. intros Hb%Hlt. lia.
  - intros b c h.
    destruct (decide (a = b)) as [Hab|Hab], (decide (a = c)) as [Hac|Hac];
      subst; rewrite ?lookup_insert_eq, ?lookup_insert_ne by done; try done.
    + intros [= <-] Hc%Hlt. lia.
    + intros Hb%Hlt [= <-]. lia.
    + apply Hinj.
Qed.

Lemma timers_ok_fired timeout h w :
  timers_ok timeout w → timers_ok timeout (set_live (delete h) w).
Proof.
  intros (Ha & Hl & Hlt & Hinj). split; [done|]. split; [|done].
  intros h' b ms; cbn. intros [_ Hw]%lookup_delete_Some. by apply Hl.
Qed.

Lemma Inv_setTimer timeout a : stable (Inv timeout) (setTimer a).
Proof.
  intros w (H1 & H2 & H3 & H4).
  pose proof (timers_ok_setTimer timeout a w H2) as H2'.
  destruct (setTimer_fields a w) as (_ & _ & _ & Hp & Hq & Hb & _).
  unfold Inv, queue_ok. rewrite Hp, Hq, Hb. done.
Qed.

Lemma Inv_publishAvailability timeout env a b :
  stable (Inv timeout) (publishAvailability env a b).
Proof. intros w Hw. rewrite publishAvailability_run. by apply Inv_log. Qed.

Lemma Inv_queue_stop timeout : stable (Inv timeout) queue_stop.
Proof. intros w Hw. by eapply Inv_frame. Qed.

Lemma Inv_handleInterval timeout a : stable (Inv timeout) (handleInterval a).
Proof.
  intros w (H1 & H2 & H3 & H4).
  destruct (includes (pending w) a) eqn:Hin.
  { rewrite handleInterval_skip by done. by apply Inv_log. }
  rewrite handleInterval_submit by done.
  set (w1 := set_pending (λ l, l ++ [a]) w).
  destruct (queue_push_fields a w1)
    as (Ht & Hl & Hn & Hp & Ha & _ & Hs & _ & Hpr).
  split; [|split; [|split]].
  - rewrite Hp. cbn. apply NoDup_app. split; [done|].
    split; [|apply NoDup_singleton].
    intros x Hx ->%list_elem_of_singleton. by apply includes_false in Hin.
  - by eapply timers_ok_frame.
  - rewrite Hp, Hs. cbn. by rewrite H3.
  - by apply Hpr.
Qed.

Lemma Inv_pingCallback timeout env a e w :
  Inv timeout w → probing w = Some a →
  Inv timeout (snd (pingCallback env a e (set_probing None w))).
Proof.
  intros (H1 & H2 & H3 & H4) Hpr.
  destruct (mqtt_accepts env (availability_topic env a)) eqn:Hbus.
  2:{ rewrite pingCallback_raises by done. apply Inv_log.
      split; [done|]. split; [done|]. split; [done|]. by cbn. }
  rewrite pingCallback_completes by done.
  set (w1 := set_pending _ _).
  pose proof (timers_ok_setTimer timeout a w1 H2) as H2'.
  destruct (setTimer_fields a w1) as (_ & _ & _ & Hp & Hq & Hb & _).
  set (w2 := snd (setTimer a w1)) in *.
  destruct (queueCallback_fields a w2)
    as (Ht & Hl & Hn & Hp' & Ha & _ & Hs & _ & Hpr').
  split; [|split; [|split]].
  - rewrite Hp', Hp. cbn. by apply remove_first_NoDup.
  - by eapply timers_ok_frame.
  - rewrite Hp', Hp, Hs, Hq. cbn. rewrite H3.
    unfold slot. rewrite (H4 _ Hpr). apply remove_first_head.
  - apply Hpr'. by rewrite Hb.
Qed.

Lemma Inv_onMQTTConnected timeout env :
  stable (Inv timeout) (onMQTTConnected env).
Proof.
  apply stable_bind; [|intros _]; apply stable_forEach; intros d.
  - apply Inv_publishAvailability.
  - apply Inv_setTimer.
Qed.

Lemma Inv_stop timeout env : stable (Inv timeout) (stop env).
Proof.
  apply stable_bind; [apply Inv_queue_stop | intros _].
  apply stable_forEach; intros d. apply Inv_publishAvailability.
Qed.

Lemma Inv_onZigbeeMessage timeout env device :
  stable (Inv timeout) (onZigbeeMessage env device).
Proof.
  destruct device as [dev|]; [|apply stable_ret].
  apply stable_bind.
  - unfold call_isPingable. destruct (zigbee_getDevice env _);
      [apply stable_ret | by intros w Hw].
  - intros v. destruct (truthy v); [apply Inv_setTimer | apply stable_ret].
Qed.

Lemma Inv_step timeout env ev w :
  Inv timeout w → Inv timeout (step env ev w).
Proof.
  intros Hw. destruct ev as [|h|e|device|]; unfold step.
  - by apply Inv_onMQTTConnected.
  - destruct (live w !! h) as [[a ms]|]; [|done].
    apply Inv_handleInterval. destruct Hw as (H1 & H2 & H3).
    split; [done|]. split; [by apply timers_ok_fired | done].
  - destruct (probing w) as [a|] eqn:Hp; [|done].
    by apply Inv_pingCallback.
  - by apply Inv_onZigbeeMessage.
  - by apply Inv_stop.
Qed.

Lemma Inv_run timeout evs w : Inv timeout w → Inv timeout (run evs w).
Proof.
  revert w. induction evs as [|[env ev] evs IH]; intros w Hw; cbn [run]; [done|].
  apply IH. by apply Inv_step.
Qed.

Lemma Inv_reachable timeout w : reachable timeout w → Inv timeout w.
Proof. intros [evs ->]. apply Inv_run, Inv_construct. Qed.

(** ** Loops over the registry *)

Lemma debug_unarmed es :
  Forall (λ e, is_debug e = true) es → omap armed_addr es = [].
Proof.
  induction 1 as [|e es He _ IH]; [done|]. by destruct e.
Qed.

Lemma availability_unarmed env a b :
  omap armed_addr (availability_effects env a b) = [].
Proof.
  unfold availability_effects. rewrite omap_app.
  by rewrite debug_unarmed by apply availability_log_debug.
Qed.

Lemma forEach_publish_run env b l w :
  reliable_bus env →
  forEach l (λ d, publishAvailability env (ieeeAddr d) b) w =
  (Returned tt,
   log (flat_map (λ d, availability_effects env (ieeeAddr d) b) l) w).
Proof.
  intros Hbus. revert w. induction l as [|d l IH]; intros w; cbn [forEach].
  - cbn. by rewrite log_nil.
  - rewrite (bind_returned _ _ _ tt);
      rewrite publishAvailability_run; unfold bus_outcome; rewrite Hbus;
      [|done].
    cbn [snd flat_map]. by rewrite IH, log_log.
Qed.

Lemma publishes_of_loop env b l :
  List.filter is_publish
    (flat_map (λ d, availability_effects env (ieeeAddr d) b) l) =
  map (λ d, availability_message env (ieeeAddr d) b) l.
Proof.
  induction l as [|d l IH]; [done|]. cbn [flat_map map].
  by rewrite List.filter_app, publishes_of_availability, IH.
Qed.

Lemma silent_loop (p : Effect → bool) env b l :
  (∀ msg, p (EDebug msg) = false) →
  (∀ t pl o, p (EPublish t pl o) = false) →
  List.filter p (flat_map (λ d, availability_effects env (ieeeAddr d) b) l)
  = [].
Proof.
  intros Hd Hp. induction l as [|d l IH]; [done|]. cbn [flat_map].
  by rewrite List.filter_app, silent_availability, IH.
Qed.

Lemma unarmed_loop env b l :
  omap armed_addr
    (flat_map (λ d, availability_effects env (ieeeAddr d) b) l) = [].
Proof.
  induction l as [|d l IH]; [done|]. cbn [flat_map].
  by rewrite omap_app, availability_unarmed, IH.
Qed.

Lemma forEach_setTimer_fields (l : list Device) w :
  fst (forEach l (λ d, setTimer (ieeeAddr d)) w) = Returned tt ∧
  pending (snd (forEach l (λ d, setTimer (ieeeAddr d)) w)) = pending w ∧
  queue (snd (forEach l (λ d, setTimer (ieeeAddr d)) w)) = queue w ∧
  ∃ es, trace (snd (forEach l (λ d, setTimer (ieeeAddr d)) w)) =
          trace w ++ es ∧
    List.filter is_publish es = [] ∧ List.filter is_push es = [] ∧
    List.filter is_ping es = [] ∧
    omap armed_addr es = map ieeeAddr l.
Proof.
  revert w. induction l as [|d l IH]; intros w; cbn [forEach].
  - repeat split; try done. exists []. by rewrite app_nil_r.
  - rewrite (bind_returned _ _ _ tt) by apply setTimer_returns.
    destruct (setTimer_fields (ieeeAddr d) w)
      as (_ & _ & _ & Hp & Hq & _ & _ & Ht).
    destruct (IH (snd (setTimer (ieeeAddr d) w)))
      as (Hr & Hp' & Hq' & es & Ht' & H1 & H2 & H3 & H4).
    split; [done|]. split; [congruence|]. split; [congruence|].
    exists (timer_effects (ieeeAddr d) w ++ es).
    split; [by rewrite Ht', Ht, app_assoc|].
    rewrite !List.filter_app, omap_app, !timer_effects_silent by done.
    rewrite timer_effects_armed, H1, H2, H3, H4. done.
Qed.

Lemma has_timer_setTimer timeout a b w :
  timers_ok timeout w →
  has_timer a (snd (setTimer b w)) ↔ a = b ∨ has_timer a w.
Proof.
  intros (Hto & Hl & Hlt & Hinj).
  destruct (setTimer_fields b w) as (_ & Hlive & _).
  unfold has_timer. rewrite Hlive. split.
  - intros (h & ms & Hh).
    destruct (decide (next_handle w = h)) as [<-|Hne].
    + rewrite lookup_insert_eq in Hh. left. congruence.
    + rewrite lookup_insert_ne in Hh by done. right. exists h, ms.
      unfold cancelled in Hh. destruct (timers w !! b); [|done].
      by apply lookup_delete_Some in Hh as [_ ?].
  - intros [->|(h & ms & Hh)].
    + eexists _, _. apply lookup_insert_eq.
    + destruct (decide (a = b)) as [->|Hab].
      { eexists _, _. apply lookup_insert_eq. }
      exists h, ms. destruct (Hl _ _ _ Hh) as (Ha & _).
      rewrite lookup_insert_ne by (apply Hlt in Ha; lia).
      unfold cancelled. destruct (timers w !! b) as [old|] eqn:Hb; [|done].
      rewrite lookup_delete_ne; [done|].
      intros ->. apply Hab. by eapply Hinj.
Qed.

Lemma has_timer_loop timeout a (l : list Device) w :
  timers_ok timeout w →
  has_timer a (snd (forEach l (λ d, setTimer (ieeeAddr d)) w)) ↔
  a ∈ map ieeeAddr l ∨ has_timer a w.
Proof.
  revert w. induction l as [|d l IH]; intros w Hok; cbn [forEach map].
  - cbn. rewrite elem_of_nil. tauto.
  - rewrite (bind_returned _ _ _ tt) by apply setTimer_returns.
    rewrite IH by by apply timers_ok_setTimer.
    rewrite (has_timer_setTimer timeout) by done.
    rewrite elem_of_cons. tauto.
Qed.

Lemma pingable_clients env a :
  a ∈ map ieeeAddr (getAllPingableDevices env) ↔
  ∃ d, d ∈ zigbee_getAllClients env ∧ ieeeAddr d = a ∧
       isPingable d = JBool true.
Proof.
  unfold getAllPingableDevices. rewrite list_elem_of_fmap. split.
  - intros (d & -> & Hd). apply list_elem_of_In, List.filter_In in Hd.
    destruct Hd as [Hd Ht]. exists d. rewrite list_elem_of_In.
    rewrite isPingable_boolean in *. cbn in Ht. by rewrite Ht.
  - intros (d & Hd & <- & Hp). exists d. split; [done|].
    apply list_elem_of_In, List.filter_In. rewrite <- list_elem_of_In.
    by rewrite Hp.
Qed.

(** ** A halted queue stays halted *)

Lemma halted_log pings es w :
  List.filter is_ping es = [] →
  halted_with pings w → halted_with pings (log es w).
Proof.
  intros Hes [Hh Hp]. split; [done|]. cbn.
  by rewrite List.filter_app, Hes, app_nil_r.
Qed.

Lemma halted_publishAvailability pings env a b :
  stable (halted_with pings) (publishAvailability env a b).
Proof.
  intros w Hw. rewrite publishAvailability_run.
  apply halted_log; [by apply silent_availability | done].
Qed.

Lemma halted_setTimer pings a : stable (halted_with pings) (setTimer a).
Proof.
  intros w [Hh Hp].
  destruct (setTimer_fields a w) as (_ & _ & _ & _ & Hq & _ & _ & Ht).
  split; [by rewrite Hq|].
  by rewrite Ht, List.filter_app, timer_effects_silent, app_nil_r.
Qed.

Lemma drain_effects_halted q es :
  halted q = true → drain_effects q es → es = [].
Proof. intros Hh [->|(a & -> & Hf)]; [done | congruence]. Qed.

Lemma halted_handleInterval pings a :
  stable (halted_with pings) (handleInterval a).
Proof.
  intros w [Hh Hp]. destruct (includes (pending w) a) eqn:Hin.
  { rewrite handleInterval_skip by done. by apply halted_log. }
  rewrite handleInterval_submit by done.
  destruct (queue_push_fields a (set_pending (λ l, l ++ [a]) w))
    as (_ & _ & _ & _ & _ & Hh' & _ & (es & Ht & Hes) & _).
  apply drain_effects_halted in Hes as ->; [|done].
  split; [by rewrite Hh'|]. rewrite Ht. cbn.
  by rewrite List.filter_app, app_nil_r.
Qed.

Lemma halted_pingCallback pings env a e :
  stable (halted_with pings) (pingCallback env a e).
Proof.
  intros w [Hh Hp].
  assert (Hlog : List.filter is_ping
            (probe_log a e :: availability_effects env a (absent e)) = []).
  { cbn [List.filter]. rewrite silent_availability by done. by destruct e. }
  destruct (mqtt_accepts env (availability_topic env a)) eqn:Hbus.
  2:{ rewrite pingCallback_raises by done. by apply halted_log. }
  rewrite pingCallback_completes by done.
  set (w1 := set_pending _ _).
  assert (H1 : halted_with pings w1).
  { split; [done|]. unfold w1, set_pending, log, set_trace. cbn [trace].
    by rewrite List.filter_app, Hlog, app_nil_r. }
  apply (halted_setTimer pings a) in H1 as [Hh2 Hp2].
  destruct (queueCallback_fields a (snd (setTimer a w1)))
    as (_ & _ & _ & _ & _ & Hh' & _ & (es & Ht & Hes) & _).
  apply drain_effects_halted in Hes as ->; [|done].
  split; [by rewrite Hh'|]. rewrite Ht.
  by rewrite List.filter_app, app_nil_r.
Qed.

Lemma halted_step pings env ev w :
  halted_with pings w → halted_with pings (step env ev w).
Proof.
  intros Hw. destruct ev as [|h|e|device|]; unfold step.
  - revert w Hw. apply stable_bind; [|intros _]; apply stable_forEach;
      intros d; [apply halted_publishAvailability | apply halted_setTimer].
  - destruct (live w !! h) as [[a ms]|]; [|done].
    by apply halted_handleInterval.
  - destruct (probing w) as [a|]; [|done]. by apply halted_pingCallback.
  - revert w Hw. destruct device as [dev|]; [|apply stable_ret].
    apply stable_bind.
    + unfold call_isPingable. destruct (zigbee_getDevice env _);
        [apply stable_ret | by intros w Hw].
    + intros v. destruct (truthy v); [apply halted_setTimer|apply stable_ret].
  - revert w Hw. apply stable_bind.
    + intros w [Hh Hp]. split; [done|]. cbn.
      by rewrite List.filter_app, app_nil_r.
    + intros _. apply stable_forEach; intros d.
      apply halted_publishAvailability.
Qed.

Lemma halted_run pings evs w :
  halted_with pings w → halted_with pings (run evs w).
Proof.
  revert w. induction evs as [|[env ev] evs IH]; intros w Hw; cbn [run];
    [done|].
  apply IH. by apply halted_step.
Qed.

(** ** The completed probe *)




Lemma pingCallback_fields env a e w :
  mqtt_accepts env (availability_topic env a) = true →
  fst (pingCallback env a e w) = Returned tt ∧
  pending (snd (pingCallback env a e w)) = remove_first a (pending w) ∧
  timers (snd (pingCallback env a e w)) =
    <[a := next_handle w]> (timers w) ∧
  live (snd (pingCallback env a e w)) =
    <[next_handle w := (a, secondsToMilliseconds (availability_timeout w))]>
      (cancelled a w) ∧
  slot (queue (snd (pingCallback env a e w))) ++
    jobs (queue (snd (pingCallback env a e w))) = jobs (queue w) ∧
  ∃ es, trace (snd (pingCallback env a e w)) =
          trace w ++
          (probe_log a e :: availability_effects env a (absent e)) ++
          timer_effects a w ++ EQueueCallback a :: es ∧
        drain_effects (queue w) es.
Proof.
  intros Hbus. rewrite pingCallback_completes by done.
  set (w1 := set_pending _ _).
  destruct (setTimer_fields a w1) as (Ht & Hl & Hn & Hp & Hq & _ & _ & Htr).
  destruct (queueCallback_fields a (snd (setTimer a w1)))
    as (Ht' & Hl' & _ & Hp' & _ & _ & Hs & (es & Htr' & Hes) & _).
  split; [apply queueCallback_returns|].
  split; [by rewrite Hp', Hp|]. split; [by rewrite Ht', Ht|].
  split; [by rewrite Hl', Hl|]. split; [by rewrite Hs, Hq|].
  exists es. rewrite Hq in Hes. split; [|done].
  rewrite Htr', Htr. unfold w1, set_pending, log, set_trace. cbn [trace].
  change (timer_effects a _) with (timer_effects a w).
  by rewrite <- !app_assoc.
Qed.




(** * The stated properties *)

(** C1.  In every reachable state no address occurs twice in the pending
    list (nor, the list mirroring the queue, in the queue), and the timer
    callback for an address that is already pending returns having written
    one log line: the pending list, the queue and every other field are as
    before, and no job was pushed.  The same holds for the whole turn of the
    event loop in which the address's timeout fires. *)
Theorem C1_pending_unique timeout w :
  reachable timeout w →
  NoDup (pending w) ∧
  NoDup (slot (queue w) ++ jobs (queue w)) ∧
  (∀ a, a ∈ pending w →
     handleInterval a w = (Returned tt, log [skip_log a] w) ∧
     pending (log [skip_log a] w) = pending w ∧
     queue (log [skip_log a] w) = queue w ∧
     List.filter is_push (trace (log [skip_log a] w)) =
       List.filter is_push (trace w)) ∧
  (∀ env h a ms, live w !! h = Some (a, ms) → a ∈ pending w →
     pending (step env (TimerFired h) w) = pending w ∧
     queue (step env (TimerFired h) w) = queue w ∧
     trace (step env (TimerFired h) w) = trace w ++ [skip_log a]).
Proof.
  intros Hr. destruct (Inv_reachable _ _ Hr) as (Hnd & _ & Hq & _).
  split; [done|]. split; [by rewrite <- Hq|]. split.
  - intros a Ha. split; [|split; [done|split; [done|]]].
    + apply handleInterval_skip. by apply includes_true.
    + cbn. rewrite List.filter_app. cbn. by rewrite app_nil_r.
  - intros env h a ms Hl Ha. unfold step. rewrite Hl.
    rewrite handleInterval_skip by (by apply includes_true). done.
Qed.

(** C4, as amended.  [isPingable] returns a boolean, and returns [true]
    exactly for a router whose power source is truthy and not ['Battery'] or
    for a device with manufacturer id 4448 and model id ['E11-G13'].  A falsy
    power source (absent, [null] or empty) switches the first alternative
    off, so such a device is eligible exactly when it is of the overridden
    model.  The result is a function of the device record alone. *)
Theorem C4_isPingable_rule d :
  (isPingable d = JBool true ↔ mains_router d ∨ override_model d) ∧
  (isPingable d = JBool false ↔ ¬ (mains_router d ∨ override_model d)) ∧
  (truthy (powerSource d) = false →
     (isPingable d = JBool true ↔ override_model d) ∧
     (¬ override_model d → isPingable d = JBool false)).
Proof.
  rewrite isPingable_boolean. pose proof (pingable_true_iff d) as Hp.
  split; [|split].
  - rewrite <- Hp. split; [by intros [= ->] | by intros ->].
  - rewrite <- Hp. destruct (pingable d); split; try done.
  - intros Hps.
    assert (Hm : ¬ mains_router d) by (intros (_ & ? & _); congruence).
    split.
    + split; [intros [= Ht]; apply Hp in Ht; tauto|].
      intros Ho. f_equal. apply Hp. by right.
    + intros Ho. destruct (pingable d); [|done].
      destruct Hp as [Hp _]. destruct (Hp eq_refl); tauto.
Qed.

(** C9.  In every reachable state the runtime holds at most one live
    timeout per address, each one set for the quiet period the constructor
    read, which the handler still holds unchanged.  [setTimer] returns,
    having first cancelled the timeout recorded for the address (if any) and
    then installed a fresh one for that period; afterwards this is the only
    live timeout of the address. *)
Theorem C9_one_timer_per_address timeout w :
  reachable timeout w →
  (∀ h1 h2 a ms1 ms2,
     live w !! h1 = Some (a, ms1) → live w !! h2 = Some (a, ms2) →
     h1 = h2) ∧
  (∀ h a ms, live w !! h = Some (a, ms) →
     ms = secondsToMilliseconds timeout) ∧
  availability_timeout w = timeout ∧
  (∀ a,
     fst (setTimer a w) = Returned tt ∧
     trace (snd (setTimer a w)) =
       trace w ++
       match timers w !! a with
       | Some old => [EClearTimeout old]
       | None => []
       end ++
       [ESetTimeout (next_handle w) a (secondsToMilliseconds timeout)] ∧
     live (snd (setTimer a w)) =
       <[next_handle w := (a, secondsToMilliseconds timeout)]>
         (match timers w !! a with
          | Some old => delete old (live w)
          | None => live w
          end) ∧
     (∀ h ms, live (snd (setTimer a w)) !! h = Some (a, ms) ↔
              h = next_handle w ∧ ms = secondsToMilliseconds timeout)).
Proof.
  intros Hr. destruct (Inv_reachable _ _ Hr) as (_ & Hok & _).
  pose proof Hok as (Hto & Hl & _).
  split; [|split; [|split; [done|]]].
  - intros h1 h2 a ms1 ms2 H1 H2.
    apply Hl in H1 as (H1 & _). apply Hl in H2 as (H2 & _). congruence.
  - intros h a ms Hh. by apply Hl in Hh as (_ & ?).
  - intros a. split; [apply setTimer_returns|].
    destruct (setTimer_fields a w) as (Ht & Hlive & Hn & _ & _ & _ & _ & Htr).
    unfold timer_effects, cancelled in *. rewrite Hto in *.
    split; [done|]. split; [done|].
    intros h ms. split.
    + intros Hh.
      destruct (timers_ok_setTimer timeout a w Hok) as (_ & Hl' & _).
      apply Hl' in Hh as (Hh & ->). rewrite Ht, lookup_insert_eq in Hh.
      by injection Hh as <-.
    + intros [-> ->]. rewrite Hlive. apply lookup_insert_eq.
Qed.

Lemma big_lamp_guard name :
  truthy (js_and name (JBool (strict_eq name (JStr "big_lamp")))) =
  strict_eq name (JStr "big_lamp").
Proof.
  unfold js_and. destruct (truthy name) eqn:Hn; [done|].
  rewrite Hn. symmetry. apply strict_eq_false. by intros ->.
Qed.

(** C10.  [publishAvailability] changes nothing but the trace, to which it
    appends log lines followed by exactly one bus call.  The branch for the
    name ['big_lamp'] contributes one or two further log lines and nothing
    else; topic, payload and options of the bus call are the same
    expressions on both sides of the branch. *)
Theorem C10_publish_frame env a b w :
  publishAvailability env a b w =
    (bus_outcome env a,
     log (availability_log env a ++
          [EPublish (availability_topic env a) (availability_payload b)
                    (mkOptions true 0)]) w) ∧
  Forall (λ e, is_debug e = true) (availability_log env a) ∧
  availability_log env a =
    EDebug ("Device information for " +:+ a +:+ ": " +:+
            stringify_settings env (settings_getDevice env a)) ::
    (if strict_eq (availability_name env a) (JStr "big_lamp")
     then EDebug ("First info: " +:+ a +:+ ": " +:+ stringify_state env a) ::
          match shepherd_find env a with
          | Some status =>
              [EDebug ("Second info: " +:+ a +:+ ": " +:+ status)]
          | None => []
          end
     else []) ∧
  List.filter is_publish
    (availability_log env a ++
     [EPublish (availability_topic env a) (availability_payload b)
               (mkOptions true 0)]) =
    [EPublish (availability_topic env a) (availability_payload b)
              (mkOptions true 0)] ∧
  (∀ es, timers (log es w) = timers w ∧ pending (log es w) = pending w ∧
         queue (log es w) = queue w ∧ live (log es w) = live w ∧
         next_handle (log es w) = next_handle w ∧
         probing (log es w) = probing w ∧
         availability_timeout (log es w) = availability_timeout w).
Proof.
  split; [apply publishAvailability_run|].
  split; [apply availability_log_debug|].
  split; [unfold availability_log; by rewrite big_lamp_guard|].
  split; [apply publishes_of_availability | done].
Qed.

(** C8, as amended.  [publishAvailability] makes one bus call, retained and
    with qos 0, whose payload is ['online'] for [true] and ['offline'] for
    [false].  The topic is built from the [friendly_name] field of the
    address's settings entry when there is an entry, and from the raw address
    when there is none.  The lookup never raises: the call raises only if the
    bus client does. *)
Theorem C8_publish_message (env : Env) (a : string) (b : bool) (w : World) :
  let topic :=
    match settings_getDevice env a with
    | Some entry => to_str (friendly_name entry) +:+ "/availability"
    | None => a +:+ "/availability"
    end in
  let payload := if b then "online" else "offline" in
  trace (snd (publishAvailability env a b w)) =
    trace w ++ availability_log env a ++
    [EPublish topic payload (mkOptions true 0)] ∧
  List.filter is_publish (availability_log env a) = [] ∧
  fst (publishAvailability env a b w) =
    (if mqtt_accepts env topic then Returned tt
     else Thrown (BusError topic)).
Proof.
  rewrite publishAvailability_run. cbn [fst snd].
  split; [|split].
  - unfold availability_effects, availability_message, availability_topic,
      availability_name, availability_payload.
    by destruct (settings_getDevice env a).
  - apply filter_debug_nil; [done | apply availability_log_debug].
  - unfold bus_outcome, availability_topic, availability_name.
    by destruct (settings_getDevice env a).
Qed.

(** C7.  [onZigbeeMessage] leaves the world as it is unless the sender
    resolves in the registry to a device [isPingable] accepts, in which case
    the world is the one [setTimer] produces for the sender's address.  In
    either case the handler publishes nothing, pushes no job and starts no
    probe; it calls [setTimeout], once and for the sender, exactly in the
    eligible case. *)
Theorem C7_traffic_rearms env device w :
  snd (onZigbeeMessage env device w) =
    match device with
    | Some dev =>
        if resolved_eligible env device
        then snd (setTimer (ieeeAddr dev) w) else w
    | None => w
    end ∧
  pending (snd (onZigbeeMessage env device w)) = pending w ∧
  queue (snd (onZigbeeMessage env device w)) = queue w ∧
  ∃ es, trace (snd (onZigbeeMessage env device w)) = trace w ++ es ∧
    List.filter is_publish es = [] ∧
    List.filter is_push es = [] ∧
    List.filter is_ping es = [] ∧
    omap armed_addr es =
      match device with
      | Some dev => if resolved_eligible env device then [ieeeAddr dev] else []
      | None => []
      end.
Proof.
  assert (Hnil : ∃ es : list Effect, trace w = trace w ++ es ∧
            List.filter is_publish es = [] ∧ List.filter is_push es = [] ∧
            List.filter is_ping es = [] ∧ omap armed_addr es = []).
  { exists []. by rewrite app_nil_r. }
  destruct device as [dev|]; [|done].
  unfold onZigbeeMessage, resolved_eligible, call_isPingable.
  destruct (zigbee_getDevice env (ieeeAddr dev)) as [d|]; [|done].
  rewrite (bind_returned _ _ _ (isPingable d)) by done. cbn [snd ret].
  destruct (truthy (isPingable d)); [|done].
  destruct (setTimer_fields (ieeeAddr dev) w)
    as (_ & _ & _ & Hp & Hq & _ & _ & Ht).
  split; [done|]. split; [done|]. split; [done|].
  exists (timer_effects (ieeeAddr dev) w). split; [done|].
  rewrite !timer_effects_silent by done. by rewrite timer_effects_armed.
Qed.

(** C5.  With a bus client that does not raise, [onMQTTConnected] returns;
    its bus calls are, in registry order, one retained ['online'] message
    per device of [getDevices()] whose type is not ['Coordinator'] and
    nothing else, so none for a coordinator; its [setTimeout] calls are one
    per device of [getAllClients()] that [isPingable] accepts.  Afterwards an
    address has a live timeout exactly if it is the address of such a client
    or had one before; right after construction, exactly if it is the
    address of such a client. *)
Theorem C5_startup timeout env w :
  reliable_bus env → reachable timeout w →
  fst (onMQTTConnected env w) = Returned tt ∧
  (∃ es, trace (snd (onMQTTConnected env w)) = trace w ++ es ∧
     List.filter is_publish es =
       map (λ d, EPublish (availability_topic env (ieeeAddr d)) "online"
                          (mkOptions true 0))
           (List.filter (λ d, negb (strict_eq (type d) (JStr "Coordinator")))
                        (zigbee_getDevices env)) ∧
     omap armed_addr es =
       map ieeeAddr (List.filter (λ d, truthy (isPingable d))
                                 (zigbee_getAllClients env))) ∧
  (∀ a, has_timer a (snd (onMQTTConnected env w)) ↔
        (∃ d, d ∈ zigbee_getAllClients env ∧ ieeeAddr d = a ∧
              isPingable d = JBool true) ∨ has_timer a w) ∧
  (∀ a, has_timer a (snd (onMQTTConnected env (construct timeout))) ↔
        ∃ d, d ∈ zigbee_getAllClients env ∧ ieeeAddr d = a ∧
             isPingable d = JBool true).
Proof.
  intros Hbus Hr.
  assert (Hrun : ∀ w0, onMQTTConnected env w0 =
    forEach (getAllPingableDevices env) (λ d, setTimer (ieeeAddr d))
      (log (flat_map (λ d, availability_effects env (ieeeAddr d) true)
              (List.filter not_coordinator (zigbee_getDevices env))) w0)).
  { intros w0. unfold onMQTTConnected.
    by rewrite (bind_returned _ _ _ tt); rewrite forEach_publish_run. }
  assert (Hlive : ∀ w0, timers_ok timeout w0 → ∀ a,
    has_timer a (snd (onMQTTConnected env w0)) ↔
    (∃ d, d ∈ zigbee_getAllClients env ∧ ieeeAddr d = a ∧
          isPingable d = JBool true) ∨ has_timer a w0).
  { intros w0 Hok a. rewrite Hrun, (has_timer_loop timeout) by done.
    by rewrite pingable_clients. }
  rewrite Hrun. set (w1 := log _ w).
  destruct (forEach_setTimer_fields (getAllPingableDevices env) w1)
    as (Hret & _ & _ & es & Ht & H1 & _ & _ & H4).
  split; [done|]. split; [|split].
  - exists (flat_map (λ d, availability_effects env (ieeeAddr d) true)
              (List.filter not_coordinator (zigbee_getDevices env)) ++ es).
    split; [rewrite Ht; unfold w1, log, set_trace; cbn [trace];
            by rewrite <- app_assoc|].
    rewrite List.filter_app, omap_app, publishes_of_loop, unarmed_loop, H1.
    by rewrite app_nil_r.
  - intros a. unfold w1. rewrite <- Hrun. apply Hlive.
    by destruct (Inv_reachable _ _ Hr) as (_ & ? & _).
  - intros a. rewrite Hlive.
    + split; [intros [?|(h & ms & Hh)]; [done|] | by left].
      revert Hh. unfold construct. cbn [live]. by rewrite lookup_empty.
    + by destruct (Inv_construct timeout) as (_ & ? & _).
Qed.

(** C6.  With a bus client that does not raise, [stop] returns; its first
    call halts the queue and all that follows are log lines and, in registry
    order, one retained ['offline'] message per device of [getDevices()]
    whose type is not ['Coordinator'], whatever the world was before.  [stop]
    pushes no job and begins no probe, and after it the queue stays halted:
    whatever events follow, no further probe is begun. *)
Theorem C6_shutdown env w :
  reliable_bus env →
  fst (stop env w) = Returned tt ∧
  (∃ es, trace (snd (stop env w)) = trace w ++ EQueueStop :: es ∧
     List.filter is_publish es =
       map (λ d, EPublish (availability_topic env (ieeeAddr d)) "offline"
                          (mkOptions true 0))
           (List.filter (λ d, negb (strict_eq (type d) (JStr "Coordinator")))
                        (zigbee_getDevices env)) ∧
     List.filter is_push es = [] ∧ List.filter is_ping es = []) ∧
  halted (queue (snd (stop env w))) = true ∧
  (∀ evs,
     halted (queue (run evs (snd (stop env w)))) = true ∧
     List.filter is_ping (trace (run evs (snd (stop env w)))) =
       List.filter is_ping (trace w)).
Proof.
  intros Hbus.
  assert (Hrun : stop env w =
    (Returned tt,
     log (flat_map (λ d, availability_effects env (ieeeAddr d) false)
            (List.filter not_coordinator (zigbee_getDevices env)))
         (set_queue (λ q, mkQueue (jobs q) (active q) true)
                    (log [EQueueStop] w)))).
  { unfold stop. rewrite (bind_returned _ _ _ tt) by done.
    by rewrite forEach_publish_run. }
  rewrite Hrun. cbn [fst snd].
  assert (Hh : halted_with (List.filter is_ping (trace w))
                 (log (flat_map
                         (λ d, availability_effects env (ieeeAddr d) false)
                         (List.filter not_coordinator (zigbee_getDevices env)))
                      (set_queue (λ q, mkQueue (jobs q) (active q) true)
                                 (log [EQueueStop] w)))).
  { apply halted_log; [by apply silent_loop|]. split; [done|]. cbn.
    by rewrite List.filter_app, app_nil_r. }
  split; [done|]. split; [|split; [apply Hh|]].
  - exists (flat_map (λ d, availability_effects env (ieeeAddr d) false)
              (List.filter not_coordinator (zigbee_getDevices env))).
    split; [unfold log, set_trace, set_queue; cbn [trace];
            by rewrite <- app_assoc|].
    by rewrite publishes_of_loop, !silent_loop.
  - intros evs. by apply halted_run.
Qed.



(** * Further properties of the handler *)

Lemma remove_first_absent a l : a ∉ l → remove_first a l = l.
Proof.
  induction l as [|x l IH]; [done|]. rewrite remove_first_cons.
  intros Hn. apply not_elem_of_cons in Hn as [Hne Hn].
  destruct (String.eqb_spec x a) as [->|_]; [done|]. by rewrite IH.
Qed.

Lemma remove_first_middle a l1 l2 :
  a ∉ l1 → remove_first a (l1 ++ a :: l2) = l1 ++ l2.
Proof.
  induction l1 as [|x l1 IH]; cbn [app].
  - intros _. apply remove_first_head.
  - intros Hn. apply not_elem_of_cons in Hn as [Hne Hn].
    rewrite remove_first_cons.
    destruct (String.eqb_spec x a) as [->|_]; [done|]. by rewrite IH.
Qed.

Lemma remove_first_other a x l : x ≠ a → x ∈ l → x ∈ remove_first a l.
Proof.
  intros Hne. induction l as [|y l IH]; [done|].
  rewrite remove_first_cons. intros [->|Hx]%elem_of_cons.
  - destruct (String.eqb_spec y a) as [->|_]; [done | left].
  - destruct (String.eqb y a); [done | right; auto].
Qed.

Lemma handleInterval_submit_state a w :
  a ∉ pending w →
  pending (snd (handleInterval a w)) = pending w ++ [a] ∧
  timers (snd (handleInterval a w)) = timers w ∧
  live (snd (handleInterval a w)) = live w.
Proof.
  intros Hn%includes_false. rewrite handleInterval_submit by done.
  destruct (queue_push_fields a (set_pending (λ l, l ++ [a]) w))
    as (Ht & Hl & _ & Hp & _).
  by rewrite Hp, Ht, Hl.
Qed.

(** X1.  A timer callback for an address that is not pending returns, appends
    the address to the end of the pending list and pushes exactly one job,
    for that address, to the queue.  It publishes nothing, calls neither
    [setTimeout] nor [queueCallback] and leaves the timer book-keeping as it
    is. *)
Theorem handleInterval_submits a w :
  a ∉ pending w →
  fst (handleInterval a w) = Returned tt ∧
  pending (snd (handleInterval a w)) = pending w ++ [a] ∧
  timers (snd (handleInterval a w)) = timers w ∧
  live (snd (handleInterval a w)) = live w ∧
  ∃ es, trace (snd (handleInterval a w)) = trace w ++ es ∧
    List.filter is_push es = [EQueuePush a] ∧
    List.filter is_publish es = [] ∧
    List.filter is_callback es = [] ∧
    omap armed_addr es = [].
Proof.
  intros Hn%includes_false. split; [apply handleInterval_returns|].
  rewrite handleInterval_submit by done.
  destruct (queue_push_fields a (set_pending (λ l, l ++ [a]) w))
    as (Ht & Hl & _ & Hp & _ & _ & _ & (es & Htr & Hes) & _).
  split; [by rewrite Hp|]. split; [by rewrite Ht|]. split; [by rewrite Hl|].
  exists (EQueuePush a :: es). split; [exact Htr|].
  by destruct Hes as [->|(b & -> & _)].
Qed.

(** X2.  Submitting a probe for an address that is not pending and then
    handling its reply, whatever it is, gives back the pending list there
    was before, when the bus client does not raise on the address's
    topic. *)
Theorem submit_then_complete_restores_pending env a (e : option string) w :
  a ∉ pending w →
  mqtt_accepts env (availability_topic env a) = true →
  pending (snd (pingCallback env a e (snd (handleInterval a w)))) =
  pending w.
Proof.
  intros Hn Hbus.
  destruct (handleInterval_submit_state a w Hn) as (Hp & _).
  destruct (pingCallback_fields env a e (snd (handleInterval a w)) Hbus)
    as (_ & -> & _).
  rewrite Hp. rewrite (remove_first_middle a (pending w) []) by done.
  by rewrite app_nil_r.
Qed.

(** X3.  Lines 70-73 remove one entry at most: when the reply's address occurs
    in the pending list its first occurrence is cut out and the order of all
    other entries is kept; when it does not occur (index -1) the list is left
    alone.  Stated for a bus client that does not raise on the topic. *)
Theorem completion_removes_first_occurrence env a (e : option string) w :
  mqtt_accepts env (availability_topic env a) = true →
  (a ∉ pending w → pending (snd (pingCallback env a e w)) = pending w) ∧
  (∀ l1 l2, pending w = l1 ++ a :: l2 → a ∉ l1 →
     pending (snd (pingCallback env a e w)) = l1 ++ l2).
Proof.
  intros Hbus.
  destruct (pingCallback_fields env a e w Hbus) as (_ & -> & _). split.
  - apply remove_first_absent.
  - intros l1 l2 -> Hn. by apply remove_first_middle.
Qed.

(** X4.  In a reachable state [setTimer] for one address neither cancels nor
    changes the live timeout of any other address. *)
Theorem setTimer_spares_other_addresses timeout a b w :
  reachable timeout w → b ≠ a →
  ∀ h ms, live (snd (setTimer a w)) !! h = Some (b, ms) ↔
          live w !! h = Some (b, ms).
Proof.
  intros Hr Hne h ms.
  destruct (Inv_reachable _ _ Hr) as (_ & (_ & Hl & Hlt & Hinj) & _).
  destruct (setTimer_fields a w) as (_ & -> & _).
  destruct (decide (next_handle w = h)) as [<-|Hh].
  - rewrite lookup_insert_eq. split; [intros [= ? _]; congruence|].
    intros Hw. apply Hl in Hw as (Hw%Hlt & _). lia.
  - rewrite lookup_insert_ne by done. unfold cancelled.
    destruct (timers w !! a) as [old|] eqn:Ha; [|done].
    split; [by intros [_ ?]%lookup_delete_Some|].
    intros Hw. apply lookup_delete_Some. split; [|done].
    intros <-. apply Hl in Hw as (Hb & _). apply Hne. by eapply Hinj.
Qed.


Lemma handleInterval_fields a w :
  timers (snd (handleInterval a w)) = timers w ∧
  live (snd (handleInterval a w)) = live w ∧
  a ∈ pending (snd (handleInterval a w)) ∧
  (∀ x, x ∈ pending w → x ∈ pending (snd (handleInterval a w))).
Proof.
  destruct (includes (pending w) a) eqn:Hin.
  - rewrite handleInterval_skip by done. apply includes_true in Hin. done.
  - apply includes_false in Hin.
    destruct (handleInterval_submit_state a w Hin) as (-> & -> & ->).
    repeat split; try done.
    + apply elem_of_app. right. by left.
    + intros x Hx. apply elem_of_app. by left.
Qed.

Lemma monitored_setTimer timeout b w :
  timers_ok timeout w →
  (∀ a, a ≠ b → is_Some (timers w !! a) → has_timer a w ∨ a ∈ pending w) →
  monitored (snd (setTimer b w)).
Proof.
  intros Hok Hm a Ha.
  destruct (setTimer_fields b w) as (Ht & _ & _ & Hp & _).
  rewrite Hp, (has_timer_setTimer timeout) by done.
  destruct (decide (a = b)) as [->|Hne]; [by left; left|].
  rewrite Ht, lookup_insert_ne in Ha by done.
  destruct (Hm a Hne Ha); [left; by right | by right].
Qed.

Lemma watch_setTimer timeout b :
  stable (λ w, Inv timeout w ∧ monitored w) (setTimer b).
Proof.
  intros w [Hi Hm]. split; [by apply Inv_setTimer|].
  destruct Hi as (_ & Hok & _). apply (monitored_setTimer timeout); [done|].
  intros a _. apply Hm.
Qed.

Lemma watch_log timeout es w :
  Inv timeout w ∧ monitored w → Inv timeout (log es w) ∧ monitored (log es w).
Proof. intros [Hi Hm]. split; [by apply Inv_log | done]. Qed.

Lemma watch_publishAvailability timeout env a b :
  stable (λ w, Inv timeout w ∧ monitored w) (publishAvailability env a b).
Proof.
  intros w Hw. rewrite publishAvailability_run. by apply watch_log.
Qed.

Lemma watch_step timeout env ev w :
  Inv timeout w ∧ monitored w →
  Inv timeout (step env ev w) ∧ monitored (step env ev w).
Proof.
  intros [Hi Hm]. split; [by apply Inv_step|].
  destruct ev as [|h|e|device|]; unfold step.
  - enough (Inv timeout (snd (onMQTTConnected env w)) ∧
            monitored (snd (onMQTTConnected env w))) as [_ ?] by done.
    revert w Hi Hm.
    enough (stable (λ w, Inv timeout w ∧ monitored w) (onMQTTConnected env))
      as Hs by (intros w Hi Hm; by apply Hs).
    apply stable_bind; [|intros _]; apply stable_forEach; intros d;
      [apply watch_publishAvailability | apply watch_setTimer].
  - destruct (live w !! h) as [[a0 ms0]|] eqn:Hh; [|done].
    destruct (handleInterval_fields a0 (set_live (delete h) w))
      as (Ht & Hl & Ha0 & Hsub).
    intros a Ha. rewrite Ht in Ha. unfold has_timer. rewrite Hl.
    unfold set_live; cbn [live].
    destruct (Hm a Ha) as [(h' & ms & Hh')|Hp]; [|right; by apply Hsub].
    destruct (decide (h' = h)) as [->|Hne].
    + right. assert (a = a0) as -> by congruence. done.
    + left. exists h', ms. by rewrite lookup_delete_ne.
  - destruct (probing w) as [a0|] eqn:Hpr; [|done].
    destruct (mqtt_accepts env (availability_topic env a0)) eqn:Hbus.
    2:{ rewrite pingCallback_raises by done. done. }
    rewrite pingCallback_completes by done.
    set (w1 := set_pending _ _).
    assert (Hm1 : monitored (snd (setTimer a0 w1))).
    { destruct Hi as (_ & Hok & _).
      apply (monitored_setTimer timeout); [done|].
      intros a Hne Ha. destruct (Hm a Ha) as [?|Hp]; [by left|right].
      cbn. by apply remove_first_other. }
    destruct (queueCallback_fields a0 (snd (setTimer a0 w1)))
      as (Ht & Hl & _ & Hp & _).
    intros a Ha. unfold has_timer. rewrite Hl, Hp. apply Hm1.
    by rewrite <- Ht.
  - enough (stable (λ w, Inv timeout w ∧ monitored w)
              (onZigbeeMessage env device)) as Hs by (by apply Hs).
    destruct device as [dev|]; [|apply stable_ret].
    apply stable_bind.
    + unfold call_isPingable. destruct (zigbee_getDevice env _);
        [apply stable_ret | by intros w0 Hw0].
    + intros v. destruct (truthy v); [apply watch_setTimer|apply stable_ret].
  - enough (stable (λ w, Inv timeout w ∧ monitored w) (stop env))
      as Hs by (by apply Hs).
    apply stable_bind.
    + intros w0 [Hi0 Hm0]. split; [by apply Inv_queue_stop | done].
    + intros _. apply stable_forEach; intros d.
      apply watch_publishAvailability.
Qed.

(** X5.  In every reachable state each address with an entry in [this.timers]
    has a live timeout or is in the pending list: between the firing of its
    timeout and the rearming at the end of the probe callback an address is
    pending, and no other handler cancels its timeout. *)
Theorem watched_addresses_stay_watched timeout w :
  reachable timeout w →
  ∀ a, is_Some (timers w !! a) → has_timer a w ∨ a ∈ pending w.
Proof.
  intros [evs ->].
  enough (Inv timeout (run evs (construct timeout)) ∧
          monitored (run evs (construct timeout))) as [_ ?] by done.
  assert (H0 : Inv timeout (construct timeout) ∧
               monitored (construct timeout)).
  { split; [apply Inv_construct|]. intros a [h Hh]. cbn in Hh.
    by rewrite lookup_empty in Hh. }
  revert H0. generalize (construct timeout).
  induction evs as [|[env ev] evs IH]; intros w Hw; cbn [run]; [done|].
  apply IH. by apply watch_step.
Qed.


(** ** Only eligible addresses are timed and probed *)

Lemma stable_forEach_in {X} P (l : list X) (f : X → M unit) :
  (∀ x, x ∈ l → stable P (f x)) → stable P (forEach l f).
Proof.
  induction l as [|x l IH]; intros Hf; cbn [forEach].
  - apply stable_ret.
  - apply stable_bind; [apply Hf; left | intros _; apply IH].
    intros y Hy. apply Hf. by right.
Qed.

Lemma debug_unaddressed es :
  Forall (λ e, is_debug e = true) es → omap addressed es = [].
Proof. induction 1 as [|e es He _ IH]; [done|]. by destruct e. Qed.

Lemma availability_unaddressed env a b :
  omap addressed (availability_effects env a b) = [].
Proof.
  unfold availability_effects. rewrite omap_app.
  by rewrite debug_unaddressed by apply availability_log_debug.
Qed.

Lemma timer_effects_addressed a w : omap addressed (timer_effects a w) = [a].
Proof. unfold timer_effects. by destruct (timers w !! a). Qed.

Lemma queue_drain_addresses w :
  ∃ es, trace (snd (queue_drain w)) = trace w ++ es ∧
        ∀ a, a ∈ omap addressed es → a ∈ jobs (queue w).
Proof.
  unfold queue_drain, job, zigbee_ping, bind, gets, modify, emit, modify, ret.
  assert (Hnil : ∃ es : list Effect, trace w = trace w ++ es ∧
            ∀ a, a ∈ omap addressed es → a ∈ jobs (queue w)).
  { exists []. rewrite app_nil_r. split; [done|]. by intros a ?%elem_of_nil. }
  destruct (halted (queue w)); [done|].
  destruct (active (queue w)); [done|].
  destruct (jobs (queue w)) as [|c rest]; [done|]. cbn.
  exists [EPing c]. split; [done|]. cbn.
  intros a ->%list_elem_of_singleton. left.
Qed.

Lemma queue_push_addresses a w :
  ∃ es, trace (snd (queue_push a w)) = trace w ++ es ∧
        ∀ x, x ∈ omap addressed es → x = a ∨ x ∈ jobs (queue w).
Proof.
  rewrite queue_push_unfold.
  match goal with |- context [queue_drain ?x] =>
    destruct (queue_drain_addresses x) as (es & Ht & Hes) end.
  exists (EQueuePush a :: es). split.
  - rewrite Ht. cbn. by rewrite <- app_assoc.
  - intros x. change (omap addressed (EQueuePush a :: es))
      with (a :: omap addressed es).
    intros [->|Hx]%elem_of_cons; [by left|].
    apply Hes in Hx. cbn in Hx. apply elem_of_app in Hx as [?|Hx];
      [by right | left]. by apply list_elem_of_singleton in Hx.
Qed.

Lemma queueCallback_addresses a w :
  ∃ es, trace (snd (queueCallback a w)) = trace w ++ es ∧
        ∀ x, x ∈ omap addressed es → x = a ∨ x ∈ jobs (queue w).
Proof.
  rewrite queueCallback_unfold.
  match goal with |- context [queue_drain ?x] =>
    destruct (queue_drain_addresses x) as (es & Ht & Hes) end.
  exists (EQueueCallback a :: es). split.
  - rewrite Ht. cbn. by rewrite <- app_assoc.
  - intros x. change (omap addressed (EQueueCallback a :: es))
      with (a :: omap addressed es).
    intros [->|Hx]%elem_of_cons; [by left|]. right. by apply Hes in Hx.
Qed.

Lemma eligible_log env es w :
  omap addressed es = [] → only_eligible env w → only_eligible env (log es w).
Proof.
  intros Hes (H1 & H2 & H3). split; [done|]. split; [done|].
  intros a. cbn. rewrite omap_app, Hes, app_nil_r. apply H3.
Qed.

Lemma eligible_setTimer env b :
  eligible_address env b → stable (only_eligible env) (setTimer b).
Proof.
  intros Hb w (H1 & H2 & H3).
  destruct (setTimer_fields b w) as (Ht & _ & _ & Hp & _ & _ & _ & Htr).
  split; [|split].
  - intros a. rewrite Ht. destruct (decide (b = a)) as [<-|Hne]; [done|].
    rewrite lookup_insert_ne by done. apply H1.
  - intros a. rewrite Hp. apply H2.
  - intros a. rewrite Htr, omap_app, timer_effects_addressed.
    intros [?|Hx]%elem_of_app; [by apply H3|].
    by apply list_elem_of_singleton in Hx as ->.
Qed.

Lemma eligible_publishAvailability env env' a b :
  stable (only_eligible env) (publishAvailability env' a b).
Proof.
  intros w He. rewrite publishAvailability_run.
  apply eligible_log; [apply availability_unaddressed | done].
Qed.

Lemma eligible_step timeout env ev w :
  Inv timeout w → only_eligible env w → only_eligible env (step env ev w).
Proof.
  intros Hi He.
  pose proof Hi as (Hnd & (_ & Hlive & _) & Hq & Hpr).
  destruct ev as [|h|e|device|]; unfold step.
  - clear Hi Hnd Hlive Hq Hpr. revert w He.
    apply stable_bind; [|intros _].
    + apply stable_forEach; intros d. apply eligible_publishAvailability.
    + apply stable_forEach_in. intros d Hd.
      apply eligible_setTimer. left. apply pingable_clients.
      apply list_elem_of_fmap. by exists d.
  - destruct (live w !! h) as [[a0 ms0]|] eqn:Hh; [|done].
    destruct He as (H1 & H2 & H3).
    assert (Ha0 : eligible_address env a0).
    { apply H1. apply Hlive in Hh as [-> _]. done. }
    destruct (includes (pending w) a0) eqn:Hin.
    { rewrite handleInterval_skip by done. by apply eligible_log. }
    rewrite handleInterval_submit by done.
    set (w1 := set_pending _ _).
    destruct (queue_push_fields a0 w1) as (Ht & _ & _ & Hp & _).
    destruct (queue_push_addresses a0 w1) as (es & Htr & Hes).
    split; [|split].
    + intros a. rewrite Ht. apply H1.
    + intros a. rewrite Hp. cbn.
      intros [?|Hx]%elem_of_app; [by apply H2|].
      by apply list_elem_of_singleton in Hx as ->.
    + intros a. rewrite Htr, omap_app.
      intros [?|Hx]%elem_of_app; [by apply H3|].
      apply Hes in Hx as [->|Hx]; [done|]. apply H2.
      cbn in Hx. rewrite Hq. apply elem_of_app. by right.
  - destruct (probing w) as [a0|] eqn:Hp0; [|done].
    pose proof He as (H1 & H2 & H3).
    assert (Hin : eligible_address env a0).
    { apply H2. rewrite Hq. unfold slot. rewrite (Hpr _ eq_refl). left. }
    assert (Hlog : omap addressed
              (probe_log a0 e :: availability_effects env a0 (absent e))
            = []).
    { rewrite <- (availability_unaddressed env a0 (absent e)).
      by destruct e. }
    destruct (mqtt_accepts env (availability_topic env a0)) eqn:Hbus.
    2:{ rewrite pingCallback_raises by done. by apply eligible_log. }
    rewrite pingCallback_completes by done.
    set (w1 := set_pending _ _).
    assert (Hw1 : only_eligible env w1).
    { split; [done|]. split.
      - intros a Ha. apply H2. by apply remove_first_subset in Ha.
      - intros a. unfold w1, set_pending, log, set_trace. cbn [trace].
        rewrite omap_app, Hlog, app_nil_r. apply H3. }
    apply (eligible_setTimer env a0 Hin) in Hw1 as (G1 & G2 & G3).
    destruct (setTimer_fields a0 w1) as (_ & _ & _ & _ & Hq1 & _).
    set (w2 := snd (setTimer a0 w1)) in *.
    destruct (queueCallback_fields a0 w2) as (Ht & _ & _ & Hp & _).
    destruct (queueCallback_addresses a0 w2) as (es & Htr & Hes).
    split; [|split].
    + intros a. rewrite Ht. apply G1.
    + intros a. rewrite Hp. apply G2.
    + intros a. rewrite Htr, omap_app.
      intros [?|Hx]%elem_of_app; [by apply G3|].
      apply Hes in Hx as [->|Hx]; [done|]. apply H2.
      rewrite Hq1 in Hx. cbn in Hx. rewrite Hq. apply elem_of_app. by right.
  - clear Hi Hnd Hlive Hq Hpr. revert w He.
    destruct device as [dev|]; [|apply stable_ret].
    unfold onZigbeeMessage, call_isPingable.
    destruct (zigbee_getDevice env (ieeeAddr dev)) as [d|] eqn:Hd;
      [|by intros w Hw].
    intros w Hw. rewrite (bind_returned _ _ _ (isPingable d)) by done.
    cbn [snd ret]. destruct (truthy (isPingable d)) eqn:Ht; [|done].
    apply eligible_setTimer; [|done]. right. exists d. split; [done|].
    rewrite isPingable_boolean in *. cbn in Ht. by rewrite Ht.
  - clear Hi Hnd Hlive Hq Hpr. revert w He. apply stable_bind.
    + intros w (H1 & H2 & H3). split; [done|]. split; [done|].
      intros a. cbn. rewrite omap_app. cbn. rewrite app_nil_r. apply H3.
    + intros _. apply stable_forEach; intros d.
      apply eligible_publishAvailability.
Qed.

(** X6.  As long as the registry answers the same, the handler is only ever
    concerned with eligible addresses: every entry of [this.timers], every
    pending address and every [setTimeout], [queue.push], [ping] and
    [queueCallback] it has made is about an address that belongs to a client
    [isPingable] accepts or that resolves to such a device. *)
Theorem only_eligible_addresses timeout env evs :
  (∀ a, is_Some (timers (run (map (pair env) evs) (construct timeout)) !! a)
        → eligible_address env a) ∧
  (∀ a, a ∈ pending (run (map (pair env) evs) (construct timeout))
        → eligible_address env a) ∧
  (∀ e a, e ∈ trace (run (map (pair env) evs) (construct timeout)) →
          addressed e = Some a → eligible_address env a).
Proof.
  enough (Inv timeout (run (map (pair env) evs) (construct timeout)) ∧
          only_eligible env (run (map (pair env) evs) (construct timeout)))
    as [_ (H1 & H2 & H3)].
  { split; [done|]. split; [done|]. intros e a He Ha. apply H3.
    apply list_elem_of_omap. by exists e. }
  assert (H0 : Inv timeout (construct timeout) ∧
               only_eligible env (construct timeout)).
  { split; [apply Inv_construct|]. split; [|split].
    - intros a [h Hh]. cbn in Hh. by rewrite lookup_empty in Hh.
    - by intros a ?%elem_of_nil.
    - by intros a ?%elem_of_nil. }
  revert H0. generalize (construct timeout).
  induction evs as [|ev evs IH]; intros w Hw; cbn [run map]; [done|].
  apply IH. destruct Hw as [Hi He]. split; [by apply Inv_step|].
  by apply (eligible_step timeout).
Qed.


(** ** Publishing loops and a bus that raises *)

Lemma availability_effects_report env a b :
  Forall (λ e, is_report e = true) (availability_effects env a b).
Proof.
  unfold availability_effects. apply Forall_app. split.
  - eapply Forall_impl; [apply availability_log_debug|].
    intros e He. unfold is_report. by rewrite He.
  - by constructor.
Qed.

Lemma loop_effects_report env b (l : list Device) :
  Forall (λ e, is_report e = true)
         (flat_map (λ d, availability_effects env (ieeeAddr d) b) l).
Proof.
  induction l as [|d l IH]; cbn [flat_map]; [constructor|].
  apply Forall_app. split; [apply availability_effects_report | done].
Qed.

Lemma forEach_publish_aborts env b before d after w :
  Forall (λ x, mqtt_accepts env (availability_topic env (ieeeAddr x)) = true)
         before →
  mqtt_accepts env (availability_topic env (ieeeAddr d)) = false →
  forEach (before ++ d :: after)
          (λ x, publishAvailability env (ieeeAddr x) b) w =
  (Thrown (BusError (availability_topic env (ieeeAddr d))),
   log (flat_map (λ x, availability_effects env (ieeeAddr x) b)
                 (before ++ [d])) w).
Proof.
  intros Hbefore Hd. revert w.
  induction Hbefore as [|x before Hx _ IH]; intros w; cbn [app forEach].
  - rewrite (bind_thrown _ _ _ (BusError (availability_topic env (ieeeAddr d))));
      rewrite publishAvailability_run; unfold bus_outcome; rewrite Hd;
      [|done].
    cbn [snd flat_map]. by rewrite app_nil_r.
  - rewrite (bind_returned _ _ _ tt);
      rewrite publishAvailability_run; unfold bus_outcome; rewrite Hx;
      [|done].
    cbn [snd flat_map]. by rewrite IH, log_log.
Qed.

Lemma forEach_publish_world env b (l : list Device) w :
  ∃ k, snd (forEach l (λ x, publishAvailability env (ieeeAddr x) b) w) =
       log (flat_map (λ x, availability_effects env (ieeeAddr x) b)
                     (take k l)) w.
Proof.
  revert w. induction l as [|d l IH]; intros w; cbn [forEach].
  - exists 0. cbn. by rewrite log_nil.
  - destruct (mqtt_accepts env (availability_topic env (ieeeAddr d)))
      eqn:Hd.
    + rewrite (bind_returned _ _ _ tt);
        rewrite publishAvailability_run; unfold bus_outcome; rewrite Hd;
        [|done].
      cbn [snd]. destruct (IH (log (availability_effects env (ieeeAddr d) b) w))
        as [k ->].
      exists (S k). cbn [take flat_map]. by rewrite log_log.
    + rewrite (bind_thrown _ _ _
                 (BusError (availability_topic env (ieeeAddr d))));
        rewrite publishAvailability_run; unfold bus_outcome; rewrite Hd;
        [|done].
      exists 1. cbn [snd take flat_map]. by rewrite app_nil_r.
Qed.

(** X7.  When the bus client raises on the topic of one of the devices
    [onMQTTConnected] announces, and not on the topics before it, the
    exception leaves [onMQTTConnected]: the devices up to and including that
    one have been announced, the remaining ones have not, and no timer has
    been armed for any device. *)
Theorem startup_aborts_when_bus_raises env before d after w :
  List.filter (λ x, negb (strict_eq (type x) (JStr "Coordinator")))
              (zigbee_getDevices env) = before ++ d :: after →
  Forall (λ x, mqtt_accepts env (availability_topic env (ieeeAddr x)) = true)
         before →
  mqtt_accepts env (availability_topic env (ieeeAddr d)) = false →
  fst (onMQTTConnected env w) =
    Thrown (BusError (availability_topic env (ieeeAddr d))) ∧
  timers (snd (onMQTTConnected env w)) = timers w ∧
  live (snd (onMQTTConnected env w)) = live w ∧
  ∃ es, trace (snd (onMQTTConnected env w)) = trace w ++ es ∧
    List.filter is_publish es =
      map (λ x, EPublish (availability_topic env (ieeeAddr x)) "online"
                         (mkOptions true 0)) (before ++ [d]) ∧
    omap armed_addr es = [].
Proof.
  intros Hl Hbefore Hd. unfold onMQTTConnected.
  change (List.filter not_coordinator (zigbee_getDevices env))
    with (List.filter (λ x, negb (strict_eq (type x) (JStr "Coordinator")))
                      (zigbee_getDevices env)).
  rewrite Hl.
  rewrite (bind_thrown _ _ _ (BusError (availability_topic env (ieeeAddr d))));
    rewrite forEach_publish_aborts by done; [|done].
  cbn [fst snd]. split; [done|]. split; [done|]. split; [done|].
  eexists. split; [reflexivity|].
  by rewrite publishes_of_loop, unarmed_loop.
Qed.

(** X8.  Whether or not the bus client raises, [stop] halts the queue first and
    from then on only writes log lines and publishes.  It cancels no
    timeout, forgets no timer entry, withdraws no pending address and no
    waiting or running job, and does not give up the probe reply that is
    still owed. *)
Theorem stop_only_halts_and_publishes env w :
  halted (queue (snd (stop env w))) = true ∧
  jobs (queue (snd (stop env w))) = jobs (queue w) ∧
  active (queue (snd (stop env w))) = active (queue w) ∧
  timers (snd (stop env w)) = timers w ∧
  live (snd (stop env w)) = live w ∧
  pending (snd (stop env w)) = pending w ∧
  probing (snd (stop env w)) = probing w ∧
  ∃ es, trace (snd (stop env w)) = trace w ++ EQueueStop :: es ∧
        Forall (λ e, is_report e = true) es.
Proof.
  unfold stop. rewrite (bind_returned _ _ _ tt) by done.
  match goal with |- context [forEach ?l ?f ?x] =>
    destruct (forEach_publish_world env false l x) as [k ->] end.
  cbn. repeat split; try done.
  eexists. split; [by rewrite <- app_assoc|]. apply loop_effects_report.
Qed.

Lemma pingCallback_publishes env a e w :
  List.filter is_publish (trace (snd (pingCallback env a e w))) =
  List.filter is_publish (trace w) ++ [availability_message env a (absent e)].
Proof.
  assert (Hpub : List.filter is_publish
            (probe_log a e :: availability_effects env a (absent e)) =
          [availability_message env a (absent e)]).
  { rewrite <- publishes_of_availability. by destruct e. }
  destruct (mqtt_accepts env (availability_topic env a)) eqn:Hbus.
  - destruct (pingCallback_fields env a e w Hbus)
      as (_ & _ & _ & _ & _ & es & -> & Hes).
    rewrite !List.filter_app, Hpub, timer_effects_silent by done.
    cbn [List.filter is_publish].
    destruct Hes as [->|(b & -> & _)]; by rewrite ?app_nil_r.
  - rewrite pingCallback_raises by done. unfold log, set_trace. cbn [snd trace].
    by rewrite List.filter_app, Hpub.
Qed.

Lemma stop_keeps_owed_reply env w :
  probing (snd (stop env w)) = probing w.
Proof.
  unfold stop. rewrite (bind_returned _ _ _ tt) by done.
  match goal with |- context [forEach ?l ?f ?x] =>
    destruct (forEach_publish_world env false l x) as [k ->] end.
  done.
Qed.

(** X9.  [stop] does not withdraw the probe that is in flight.  When its reply
    arrives after [stop], the callback publishes the probe's result as
    usual, so the last message for that address is the probe's result and
    not the ['offline'] that [stop] sent. *)
Theorem reply_after_stop_is_published env env' a (e : option string) w :
  probing w = Some a →
  List.filter is_publish
    (trace (step env' (ProbeReplied e) (snd (stop env w)))) =
  List.filter is_publish (trace (snd (stop env w))) ++
  [EPublish (availability_topic env' a)
            (match e with None => "online" | Some _ => "offline" end)
            (mkOptions true 0)].
Proof.
  intros Hp. unfold step.
  rewrite stop_keeps_owed_reply, Hp, pingCallback_publishes. cbn [trace set_probing].
  unfold availability_message. by destruct e.
Qed.


(** X10.  A message makes the handler raise exactly when its sender is given and
    the registry does not resolve the sender's address: [isPingable] then
    reads [.type] of [undefined].  Nothing has been touched when it raises,
    and a message never makes the handler raise for another reason. *)
Theorem onZigbeeMessage_raises_iff env device w :
  ((∃ e, fst (onZigbeeMessage env device w) = Thrown e) ↔
   ∃ dev, device = Some dev ∧ zigbee_getDevice env (ieeeAddr dev) = None) ∧
  (∀ e, fst (onZigbeeMessage env device w) = Thrown e →
        (∃ msg, e = TypeError msg) ∧ snd (onZigbeeMessage env device w) = w).
Proof.
  destruct device as [dev|]; cbn [onZigbeeMessage].
  2:{ split; [|done]. split; [by intros [e ?] | by intros (dev & ? & _)]. }
  unfold call_isPingable.
  destruct (zigbee_getDevice env (ieeeAddr dev)) as [d|] eqn:Hd.
  - rewrite (bind_returned _ _ _ (isPingable d)) by done. cbn [snd ret].
    assert (Hret : fst ((if truthy (isPingable d)
                         then setTimer (ieeeAddr dev) else ret tt) w)
                   = Returned tt).
    { destruct (truthy (isPingable d)); [apply setTimer_returns | done]. }
    rewrite Hret. split; [|done].
    split; [by intros [e ?]|]. intros (dev' & [= <-] & Hn). congruence.
  - split.
    + split; [intros _; by exists dev | intros _; by eexists].
    + intros e [= <-]. split; [by eexists | done].
Qed.

(** ** Every call is well formed *)

Lemma well_formed_availability timeout env a b :
  Forall (well_formed_call timeout) (availability_effects env a b).
Proof.
  unfold availability_effects. apply Forall_app. split.
  - eapply Forall_impl; [apply availability_log_debug|].
    intros e He. by destruct e.
  - constructor; [|constructor]. split; [done|]. split.
    + destruct b; [by left | by right].
    + by eexists.
Qed.

Lemma well_formed_log timeout es w :
  Forall (well_formed_call timeout) es →
  availability_timeout w = timeout ∧
    Forall (well_formed_call timeout) (trace w) →
  availability_timeout (log es w) = timeout ∧
    Forall (well_formed_call timeout) (trace (log es w)).
Proof.
  intros Hes [Ha Ht]. split; [done|]. cbn. apply Forall_app. done.
Qed.

Lemma well_formed_drain timeout q es :
  drain_effects q es → Forall (well_formed_call timeout) es.
Proof. intros [->|(a & -> & _)]; repeat constructor. Qed.

Lemma well_formed_publishAvailability timeout env a b :
  stable (λ w, availability_timeout w = timeout ∧
               Forall (well_formed_call timeout) (trace w))
         (publishAvailability env a b).
Proof.
  intros w Hw. rewrite publishAvailability_run.
  apply well_formed_log; [apply well_formed_availability | done].
Qed.

Lemma well_formed_setTimer timeout a :
  stable (λ w, availability_timeout w = timeout ∧
               Forall (well_formed_call timeout) (trace w))
         (setTimer a).
Proof.
  intros w [Ha Ht].
  destruct (setTimer_fields a w) as (_ & _ & _ & _ & _ & _ & -> & ->).
  split; [done|]. apply Forall_app. split; [done|].
  unfold timer_effects. rewrite Ha.
  destruct (timers w !! a); repeat constructor.
Qed.

Lemma well_formed_step timeout env ev w :
  availability_timeout w = timeout ∧
    Forall (well_formed_call timeout) (trace w) →
  availability_timeout (step env ev w) = timeout ∧
    Forall (well_formed_call timeout) (trace (step env ev w)).
Proof.
  set (P := λ w0, availability_timeout w0 = timeout ∧
                  Forall (well_formed_call timeout) (trace w0)).
  intros Hw. change (P w) in Hw. change (P (step env ev w)).
  destruct ev as [|h|e|device|]; unfold step.
  - enough (stable P (onMQTTConnected env)) as Hs by (by apply Hs).
    apply stable_bind; [|intros _]; apply stable_forEach;
      intros d;
      [apply well_formed_publishAvailability | apply well_formed_setTimer].
  - destruct (live w !! h) as [[a ms]|]; [|done].
    destruct (includes (pending w) a) eqn:Hin.
    { rewrite handleInterval_skip by done.
      apply well_formed_log; [by repeat constructor | done]. }
    rewrite handleInterval_submit by done.
    destruct (queue_push_fields a
                (set_pending (λ l, l ++ [a]) (set_live (delete h) w)))
      as (_ & _ & _ & _ & Hto & _ & _ & (es & Htr & Hes) & _).
    destruct Hw as [Ha Ht]. split; [by rewrite Hto|]. rewrite Htr.
    cbn [trace set_pending set_live].
    apply Forall_app. split; [done|]. constructor; [done|].
    by eapply well_formed_drain.
  - destruct (probing w) as [a|]; [|done].
    assert (Hlog : Forall (well_formed_call timeout)
              (probe_log a e :: availability_effects env a (absent e))).
    { constructor; [by destruct e | apply well_formed_availability]. }
    destruct (mqtt_accepts env (availability_topic env a)) eqn:Hbus.
    2:{ rewrite pingCallback_raises by done. by apply well_formed_log. }
    rewrite pingCallback_completes by done.
    set (w1 := set_pending _ _).
    assert (Hw1 : P w1).
    { destruct Hw as [Ha Ht]. split; [done|].
      unfold w1, set_pending, log, set_trace. cbn [trace].
      apply Forall_app. done. }
    apply (well_formed_setTimer timeout a) in Hw1 as [Ha2 Ht2].
    destruct (queueCallback_fields a (snd (setTimer a w1)))
      as (_ & _ & _ & _ & Hto & _ & _ & (es & Htr & Hes) & _).
    split; [by rewrite Hto|]. rewrite Htr.
    apply Forall_app. split; [done|]. constructor; [done|].
    by eapply well_formed_drain.
  - enough (stable P (onZigbeeMessage env device)) as Hs by (by apply Hs).
    destruct device as [dev|]; [|apply stable_ret].
    apply stable_bind.
    + unfold call_isPingable. destruct (zigbee_getDevice env _);
        [apply stable_ret | by intros w0 Hw0].
    + intros v. destruct (truthy v);
        [apply well_formed_setTimer | apply stable_ret].
  - enough (stable P (stop env)) as Hs by (by apply Hs).
    apply stable_bind.
    + intros w0 [Ha Ht]. split; [done|]. cbn. apply Forall_app.
      split; [done | by repeat constructor].
    + intros _. apply stable_forEach; intros d.
      apply well_formed_publishAvailability.
Qed.

(** X11.  Whatever happens after construction, every bus call the handler has
    made is retained, has qos 0, carries the payload ['online'] or
    ['offline'] and goes to a topic ending in ['/availability'], and every
    timeout it has set runs for the quiet period read by the constructor. *)
Theorem every_call_is_well_formed timeout evs :
  Forall (well_formed_call timeout) (trace (run evs (construct timeout))).
Proof.
  enough (availability_timeout (run evs (construct timeout)) = timeout ∧
          Forall (well_formed_call timeout)
                 (trace (run evs (construct timeout)))) as [_ ?] by done.
  assert (H0 : availability_timeout (construct timeout) = timeout ∧
               Forall (well_formed_call timeout) (trace (construct timeout)))
    by (split; [done | constructor]).
  revert H0. generalize (construct timeout).
  induction evs as [|[env ev] evs IH]; intros w Hw; cbn [run]; [done|].
  apply IH. by apply well_formed_step.
Qed.

(** ** A job that never frees its slot *)

Lemma queue_drain_busy w :
  is_Some (active (queue w)) → snd (queue_drain w) = w.
Proof.
  intros [a Ha].
  unfold queue_drain, job, zigbee_ping, bind, gets, modify, emit, modify, ret.
  cbn. destruct (halted (queue w)); [done|]. by rewrite Ha.
Qed.

Lemma stalled_step env ev w (pings callbacks : list Effect) :
  stalled w ∧ List.filter is_ping (trace w) = pings ∧
    List.filter is_callback (trace w) = callbacks →
  stalled (step env ev w) ∧
    List.filter is_ping (trace (step env ev w)) = pings ∧
    List.filter is_callback (trace (step env ev w)) = callbacks ∧
    (∀ a, a ∈ pending w → a ∈ pending (step env ev w)).
Proof.
  set (P := λ w0, (stalled w0 ∧ List.filter is_ping (trace w0) = pings ∧
                   List.filter is_callback (trace w0) = callbacks) ∧
                  pending w0 = pending w).
  assert (Hlog : ∀ es w0, List.filter is_ping es = [] →
            List.filter is_callback es = [] → P w0 → P (log es w0)).
  { intros es w0 H1 H2 [(Hs & Hp & Hc) Hpe]. split; [|done].
    split; [done|]. cbn. by rewrite !List.filter_app, H1, H2, !app_nil_r. }
  assert (Hpub : ∀ env' a b, stable P (publishAvailability env' a b)).
  { intros env' a b w0 Hw0. rewrite publishAvailability_run.
    apply Hlog; [by apply silent_availability ..| done]. }
  assert (Hset : ∀ a, stable P (setTimer a)).
  { intros a w0 [([Hs1 Hs2] & Hp & Hc) Hpe].
    destruct (setTimer_fields a w0) as (_ & _ & _ & Hp' & Hq & Hb & _ & Ht).
    unfold P, stalled. rewrite Hp', Hq, Hb, Ht, !List.filter_app.
    by rewrite !timer_effects_silent, !app_nil_r. }
  intros Hw.
  enough (HP : P (step env ev w) ∨
               (stalled (step env ev w) ∧
                List.filter is_ping (trace (step env ev w)) = pings ∧
                List.filter is_callback (trace (step env ev w)) = callbacks ∧
                ∃ a, pending (step env ev w) = pending w ++ [a])).
  { destruct HP as [[(? & ? & ?) Hpe]|(? & ? & ? & a & Hpe)];
      (split; [done|]); (split; [done|]); (split; [done|]); rewrite Hpe;
      [done|]. intros x Hx. apply elem_of_app. by left. }
  assert (HPw : P w) by done.
  destruct ev as [|h|e|device|]; unfold step.
  - left. enough (stable P (onMQTTConnected env)) as Hs by (by apply Hs).
    apply stable_bind; [|intros _]; apply stable_forEach; intros d;
      [apply Hpub | apply Hset].
  - destruct (live w !! h) as [[a ms]|]; [|by left].
    destruct (includes (pending w) a) eqn:Hin.
    { left. rewrite handleInterval_skip by done. by apply Hlog. }
    right. rewrite handleInterval_submit by done.
    rewrite queue_push_unfold, queue_drain_busy;
      [|cbn; by destruct Hw as ([_ ?] & _)].
    destruct Hw as ([Hs1 Hs2] & Hp & Hc). cbn.
    rewrite !List.filter_app. cbn. rewrite !app_nil_r.
    repeat split; try done. by exists a.
  - left. destruct Hw as ([Hs1 Hs2] & _). by rewrite Hs1.
  - left.
    enough (stable P (onZigbeeMessage env device)) as Hs by (by apply Hs).
    destruct device as [dev|]; [|apply stable_ret].
    apply stable_bind.
    + unfold call_isPingable. destruct (zigbee_getDevice env _);
        [apply stable_ret | by intros w1 Hw1].
    + intros v. destruct (truthy v); [apply Hset | apply stable_ret].
  - left. enough (stable P (stop env)) as Hs by (by apply Hs).
    apply stable_bind.
    + intros w1 [([Hs1 Hs2] & Hp & Hc) Hpe]. split; [|done].
      split; [done|]. cbn. by rewrite !List.filter_app, !app_nil_r.
    + intros _. apply stable_forEach; intros d. apply Hpub.
Qed.


(** X12.  When the bus client raises inside the callback of the probe in flight,
    the job never frees the queue's only slot: whatever events follow, no
    further probe is begun, no completion continuation is called, and the
    address stays in the pending list, so its later timer callbacks are
    skipped. *)
Theorem fault_in_callback_stalls_queue timeout env a (e : option string)
    w evs :
  reachable timeout w → probing w = Some a →
  mqtt_accepts env (availability_topic env a) = false →
  List.filter is_ping (trace (run evs (step env (ProbeReplied e) w))) =
    List.filter is_ping (trace w) ∧
  List.filter is_callback (trace (run evs (step env (ProbeReplied e) w))) =
    List.filter is_callback (trace w) ∧
  a ∈ pending (run evs (step env (ProbeReplied e) w)).
Proof.
  intros Hr Hp Hbus.
  destruct (Inv_reachable _ _ Hr) as (_ & _ & Hq & Hact).
  unfold step. rewrite Hp, pingCallback_raises by done. cbn [snd].
  set (w1 := log _ _).
  assert (Hlog : List.filter is_ping
            (probe_log a e :: availability_effects env a (absent e)) = [] ∧
          List.filter is_callback
            (probe_log a e :: availability_effects env a (absent e)) = []).
  { cbn [List.filter]. rewrite !silent_availability by done. by destruct e. }
  destruct Hlog as [Hl1 Hl2].
  assert (H1 : (stalled w1 ∧
                List.filter is_ping (trace w1) = List.filter is_ping (trace w) ∧
                List.filter is_callback (trace w1) =
                  List.filter is_callback (trace w)) ∧ a ∈ pending w1).
  { split; [split; [|split]|].
    - split; [done|]. cbn. rewrite (Hact _ Hp). by eexists.
    - unfold w1, log, set_trace, set_probing. cbn [trace].
      by rewrite List.filter_app, Hl1, app_nil_r.
    - unfold w1, log, set_trace, set_probing. cbn [trace].
      by rewrite List.filter_app, Hl2, app_nil_r.
    - cbn. rewrite Hq. unfold slot. rewrite (Hact _ Hp). left. }
  clearbody w1. revert w1 H1.
  induction evs as [|[env' ev] evs IH]; intros w1 [(Hs & Hpi & Hcb) Hin];
    cbn [run]; [done|].
  destruct (stalled_step env' ev w1 _ _ (conj Hs (conj Hpi Hcb)))
    as (Hs' & Hpi' & Hcb' & Hsub).
  apply IH. split; [done | by apply Hsub].
Qed.


(** * [stringifyOnce] *)

Context {builtins : StringBuiltins}.

Lemma value_strict_eq_refl v : value_strict_eq v v = true.
Proof.
  destruct v; cbn; [by apply strict_eq_true | apply Nat.eqb_refl ..].
Qed.

Lemma value_strict_eq_sym a b : value_strict_eq a b = value_strict_eq b a.
Proof.
  destruct a, b; cbn; try done; [|apply Nat.eqb_sym ..].
  unfold strict_eq. apply bool_decide_ext. split; congruence.
Qed.

Lemma value_strict_eq_trans a b c :
  value_strict_eq a b = true → value_strict_eq b c = true →
  value_strict_eq a c = true.
Proof.
  destruct a, b, c; cbn; try done.
  - rewrite !strict_eq_true. congruence.
  - rewrite !Nat.eqb_eq. congruence.
  - rewrite !Nat.eqb_eq. congruence.
Qed.

Lemma value_strict_eq_typeof a b :
  value_strict_eq a b = true → typeof a = typeof b.
Proof.
  destruct a, b; cbn; try done. intros ->%strict_eq_true. done.
Qed.

Lemma forEach_index_none value l index acc :
  Forall (λ x, value_strict_eq x value = false) l →
  forEach_index value l index acc = acc.
Proof.
  intros Hl. revert index acc.
  induction Hl as [|x l Hx _ IH]; intros index acc; cbn; [done|].
  by rewrite Hx, IH.
Qed.

Lemma forEach_index_last value l index acc j x :
  l !! j = Some x → value_strict_eq x value = true →
  (∀ j' y, j < j' → l !! j' = Some y → value_strict_eq y value = false) →
  forEach_index value l index acc = Some (index + j).
Proof.
  revert index acc j. induction l as [|z l IH]; intros index acc j Hj Hx Hlast;
    [done|].
  destruct j as [|j]; cbn in *.
  - injection Hj as ->. rewrite Hx, forEach_index_none; [f_equal; lia|].
    apply Forall_lookup. intros i y Hy. apply (Hlast (S i)); [lia | done].
  - rewrite (IH (S index) _ j Hj Hx); [f_equal; lia|].
    intros j' y Hlt Hy. apply (Hlast (S j')); [lia | done].
Qed.

Lemma last_occurrence {A} (p : A → bool) (l : list A) i x :
  l !! i = Some x → p x = true →
  ∃ j y, l !! j = Some y ∧ p y = true ∧
         ∀ j' z, j < j' → l !! j' = Some z → p z = false.
Proof.
  revert i x. induction l as [|a l IH]; intros i x Hi Hx; [done|].
  destruct (decide (Forall (λ y, p y = false) l)) as [Hn|Hn].
  - destruct i as [|i]; cbn in Hi.
    + injection Hi as ->. exists 0, x. split; [done|]. split; [done|].
      intros [|j'] z Hlt Hz; [lia|]. cbn in Hz.
      by eapply Forall_lookup_1 in Hn.
    + eapply Forall_lookup_1 in Hn; [|done]. congruence.
  - apply not_Forall_Exists in Hn; [|intros y; apply _].
    apply Exists_exists in Hn as (y & Hy & Hey).
    apply list_elem_of_lookup in Hy as [k Hk].
    destruct (IH k y Hk) as (j & z & Hj & Hz & Hlast).
    { cbn in Hey. by destruct (p y). }
    exists (S j), z. split; [done|]. split; [done|].
    intros [|j'] z' Hlt Hz'; [lia|]. apply (Hlast j'); [lia | done].
Qed.

Lemma printOnceReplacer_in_step obj replacer key value st :
  in_step st → in_step (snd (printOnceReplacer obj replacer key value st)).
Proof.
  intros [Hlen Hmax]. unfold printOnceReplacer.
  destruct (Nat.ltb_spec 2000 (length (printedObjects st))); [done|].
  assert (Hpush : ∀ v k, in_step (mkPrinted (printedObjects st ++ [v])
                                           (printedObjectKeys st ++ [k]))).
  { intros v k. split; cbn; rewrite !length_app; cbn; lia. }
  destruct (String.eqb key ""); [apply Hpush|].
  destruct (forEach_index _ _ _ _); [|apply Hpush].
  destruct (String.eqb (typeof value) "object"); [|apply Hpush].
  destruct (bool_decide _); [done|]. by destruct (type_name value).
Qed.

Lemma replay_invariant (P : Printed → Prop) obj replacer :
  (∀ key value st, P st →
     P (snd (printOnceReplacer obj replacer key value st))) →
  ∀ calls st, P st → P (snd (replay obj replacer calls st)).
Proof.
  intros Hstep. induction calls as [|[key value] calls IH]; intros st Hst;
    cbn [replay]; [done|].
  specialize (Hstep key value st Hst).
  destruct (printOnceReplacer obj replacer key value st) as [[v|e] st'];
    [|done].
  specialize (IH st' Hstep).
  by destruct (replay obj replacer calls st') as [[vs|e] st''].
Qed.

(** X16.  After any sequence of replacer calls on a fresh [stringifyOnce] the two
    arrays have the same length, so every recorded value has its key, and
    they hold at most 2001 entries. *)
Theorem replacer_arrays_in_step obj replacer calls :
  length (printedObjects (snd (replay obj replacer calls nothing_printed))) =
  length (printedObjectKeys (snd (replay obj replacer calls nothing_printed)))
  ∧ (length (printedObjects (snd (replay obj replacer calls nothing_printed)))
     ≤ 2001)%nat.
Proof.
  change (in_step (snd (replay obj replacer calls nothing_printed))).
  apply (replay_invariant in_step).
  - intros key value st. apply printOnceReplacer_in_step.
  - split; cbn; lia.
Qed.

(** X17.  Once more than 2000 values have been recorded the replacer answers
    ['object too long'] to every call and records nothing further. *)
Theorem replacer_saturates obj replacer calls st :
  (2000 < length (printedObjects st))%nat →
  replay obj replacer calls st =
  (Returned (map (λ _, VPrim (JStr "object too long")) calls), st).
Proof.
  intros Hlen. induction calls as [|[key value] calls IH]; [done|].
  cbn [replay map]. unfold printOnceReplacer.
  destruct (Nat.ltb_spec 2000 (length (printedObjects st))); [|lia].
  by rewrite IH.
Qed.


(** X19.  A value that is not of type ['object'] (a number, string, boolean,
    [undefined] or function), or that is not [===] to any recorded value, is
    recorded under its own key and handed to the caller's replacer when
    there is one, as long as the key is not empty and at most 2000 values
    are recorded.  Primitives are therefore recorded again at every
    occurrence. *)
Theorem fresh_value_is_recorded obj replacer key value st :
  (length (printedObjects st) ≤ 2000)%nat → key ≠ "" →
  typeof value ≠ "object" ∨
    Forall (λ x, value_strict_eq x value = false) (printedObjects st) →
  printOnceReplacer obj replacer key value st =
  (Returned match replacer with Some f => f key value | None => value end,
   mkPrinted (printedObjects st ++ [value]) (printedObjectKeys st ++ [key])).
Proof.
  intros Hlen Hkey Hfresh. unfold printOnceReplacer, record_value.
  destruct (Nat.ltb_spec 2000 (length (printedObjects st))); [lia|].
  destruct (String.eqb_spec key ""); [done|].
  destruct Hfresh as [Ht|Hn].
  - destruct (String.eqb_spec (typeof value) "object"); [done|].
    by destruct (forEach_index _ _ _ _).
  - by rewrite forEach_index_none.
Qed.

Lemma forEach_index_None_inv value l index :
  forEach_index value l index None = None →
  Forall (λ x, value_strict_eq x value = false) l.
Proof.
  intros Hnone. apply Forall_lookup. intros i x Hi.
  destruct (value_strict_eq x value) eqn:Hx; [|done].
  destruct (last_occurrence (λ y, value_strict_eq y value) l i x Hi Hx)
    as (j & y & Hj & Hy & Hlast).
  rewrite (forEach_index_last value l index None j y Hj Hy Hlast) in Hnone.
  done.
Qed.

Lemma printOnceReplacer_keys obj replacer key value st :
  printedObjectKeys (snd (printOnceReplacer obj replacer key value st)) =
    printedObjectKeys st ∨
  printedObjectKeys (snd (printOnceReplacer obj replacer key value st)) =
    printedObjectKeys st ++ ["root"] ∨
  (key ≠ "" ∧
   printedObjectKeys (snd (printOnceReplacer obj replacer key value st)) =
     printedObjectKeys st ++ [key]).
Proof.
  unfold printOnceReplacer, record_value.
  destruct (2000 <? length (printedObjects st))%nat; [by left|].
  destruct (String.eqb_spec key ""); [right; by left|].
  destruct (forEach_index _ _ _ _); [|right; right; done].
  destruct (String.eqb (typeof value) "object"); [|right; right; done].
  left. destruct (bool_decide _); [done|]. by destruct (type_name value).
Qed.

(** X20.  On a fresh [stringifyOnce] every key the replacer records is the text
    ['root'] or a non-empty key it was called with.  The fallback
    ['(empty key)'] of line 148 is never taken: an empty key has already
    been treated as the root at line 134. *)
Theorem recorded_keys_were_passed obj replacer calls k :
  k ∈ printedObjectKeys (snd (replay obj replacer calls nothing_printed)) →
  k = "root" ∨ (k ≠ "" ∧ ∃ v, (k, v) ∈ calls).
Proof.
  enough (Hgen : ∀ st,
    k ∈ printedObjectKeys (snd (replay obj replacer calls st)) →
    k ∈ printedObjectKeys st ∨ k = "root" ∨ (k ≠ "" ∧ ∃ v, (k, v) ∈ calls)).
  { intros Hk. apply Hgen in Hk as [Hk|Hk]; [|done].
    by apply elem_of_nil in Hk. }
  induction calls as [|[key value] calls IH]; intros st; cbn [replay].
  - by left.
  - assert (Hhere : k ∈ printedObjectKeys
                        (snd (printOnceReplacer obj replacer key value st)) →
              k ∈ printedObjectKeys st ∨ k = "root" ∨
              (k ≠ "" ∧ ∃ v, (k, v) ∈ (key, value) :: calls)).
    { intros Hk.
      destruct (printOnceReplacer_keys obj replacer key value st)
        as [Heq|[Heq|[Hkey Heq]]]; rewrite Heq in Hk.
      - by left.
      - apply elem_of_app in Hk as [?|Hk]; [by left|].
        apply list_elem_of_singleton in Hk. by right; left.
      - apply elem_of_app in Hk as [?|Hk]; [by left|].
        apply list_elem_of_singleton in Hk as ->.
        right; right. split; [done|]. exists value. left. }
    destruct (printOnceReplacer obj replacer key value st) as [[v|e] st']
      eqn:Hcall; cbn [snd] in Hhere; [|exact Hhere].
    specialize (IH st').
    destruct (replay obj replacer calls st') as [[vs|e] st'']; cbn [snd] in *;
      intros Hk; apply IH in Hk as [Hk|[->|(Hne & v' & Hv)]];
      try (by right; left);
      try (right; right; split; [done|]; exists v'; by right);
      by apply Hhere.
Qed.

Lemma printOnceReplacer_root_recorded obj replacer key value st :
  typeof obj = "object" →
  in_step st ∧ root_recorded obj st →
  root_recorded obj (snd (printOnceReplacer obj replacer key value st)).
Proof.
  intros Hobj [[Hlen _] Hrr].
  pose proof Hrr as [(i0 & x0 & Hi0 & Hx0) Hroot].
  assert (Hpush : ∀ v k, (value_strict_eq v obj = true → k = "root") →
            root_recorded obj (mkPrinted (printedObjects st ++ [v])
                                         (printedObjectKeys st ++ [k]))).
  { intros v k Hvk. split; cbn.
    - exists i0, x0. split; [|done]. by apply lookup_app_l_Some.
    - intros i x Hi Hx. apply lookup_app_Some in Hi as [Hi|[Hge Hi]].
      + apply lookup_app_l_Some. by eapply Hroot.
      + apply list_lookup_singleton_Some in Hi as [Hi ->].
        rewrite lookup_app_r by lia.
        replace (i - length (printedObjectKeys st)) with 0 by lia.
        by rewrite (Hvk Hx). }
  unfold printOnceReplacer, record_value.
  destruct (2000 <? length (printedObjects st))%nat; [done|].
  destruct (String.eqb_spec key ""); [by apply Hpush|].
  destruct (forEach_index value (printedObjects st) 0 None) eqn:Hf.
  - destruct (String.eqb_spec (typeof value) "object") as [Ht|Ht].
    + destruct (bool_decide _); [done|]. by destruct (type_name value).
    + apply Hpush. intros Hv%value_strict_eq_typeof. congruence.
  - apply Hpush. intros Hv. apply forEach_index_None_inv in Hf.
    eapply Forall_lookup_1 in Hf; [|exact Hi0].
    rewrite (value_strict_eq_trans x0 obj value) in Hf; [done | done |].
    by rewrite value_strict_eq_sym.
Qed.

(** X21.  On a fresh [stringifyOnce] whose first replacer call is the root call
    (empty key), a later occurrence of the root object under a non-empty key
    is answered with ['(pointer to root)'] and nothing is recorded, as long
    as at most 2000 values are recorded: a cycle through the root is cut. *)
Theorem cycle_through_root_is_cut obj replacer v0 calls key :
  typeof obj = "object" → key ≠ "" →
  (length (printedObjects
     (snd (replay obj replacer (("", v0) :: calls) nothing_printed)))
   ≤ 2000)%nat →
  printOnceReplacer obj replacer key obj
    (snd (replay obj replacer (("", v0) :: calls) nothing_printed)) =
  (Returned (VPrim (JStr "(pointer to root)")),
   snd (replay obj replacer (("", v0) :: calls) nothing_printed)).
Proof.
  intros Hobj Hkey.
  assert (Hst : in_step (snd (replay obj replacer (("", v0) :: calls)
                                nothing_printed)) ∧
                root_recorded obj (snd (replay obj replacer
                                          (("", v0) :: calls)
                                          nothing_printed))).
  { assert (Hfirst : snd (replay obj replacer (("", v0) :: calls)
                           nothing_printed) =
                     snd (replay obj replacer calls
                            (mkPrinted [obj] ["root"]))).
    { cbn [replay].
      change (printOnceReplacer obj replacer "" v0 nothing_printed)
        with (Returned v0, mkPrinted [obj] ["root"]).
      cbv beta iota.
      by destruct (replay obj replacer calls (mkPrinted [obj] ["root"]))
        as [[vs|e] st'']. }
    rewrite Hfirst.
    apply (replay_invariant (λ st, in_step st ∧ root_recorded obj st)).
    - intros k v st Hst. split.
      + apply printOnceReplacer_in_step. apply Hst.
      + by apply printOnceReplacer_root_recorded.
    - split; [split; cbn; lia|]. split.
      + exists 0, obj. split; [done | apply value_strict_eq_refl].
      + intros [|i] x Hi Hx; [done|]. done. }
  generalize dependent (snd (replay obj replacer (("", v0) :: calls)
                               nothing_printed)).
  intros st [_ [(i & x & Hi & Hx) Hroot]] Hlen.
  destruct (last_occurrence (λ y, value_strict_eq y obj) _ i x Hi Hx)
    as (j & y & Hj & Hy & Hlast).
  unfold printOnceReplacer.
  destruct (Nat.ltb_spec 2000 (length (printedObjects st))); [lia|].
  destruct (String.eqb_spec key ""); [done|].
  rewrite (forEach_index_last obj _ 0 None j y Hj Hy Hlast). cbn [Nat.add].
  rewrite Hobj. cbn [String.eqb]. rewrite !Ascii.eqb_refl.
  by rewrite bool_decide_eq_true_2 by (by eapply Hroot).
Qed.

(** * The probe in flight *)

(** X13.  When a live timeout fires, its address is pending afterwards and has
    no live timeout left: until the probe callback or a message from the
    device rearms it, no second timer callback for the address can occur. *)
Theorem fired_timer_leaves_address_pending timeout env h a ms w :
  reachable timeout w → live w !! h = Some (a, ms) →
  a ∈ pending (step env (TimerFired h) w) ∧
  ¬ has_timer a (step env (TimerFired h) w).
Proof.
  intros Hr Hh. destruct (Inv_reachable _ _ Hr) as (_ & (_ & Hl & _) & _).
  unfold step. rewrite Hh.
  destruct (handleInterval_fields a (set_live (delete h) w))
    as (_ & Hlive & Hin & _).
  split; [done|]. intros (h' & ms' & Hh'). rewrite Hlive in Hh'.
  unfold set_live in Hh'; cbn [live] in Hh'.
  apply lookup_delete_Some in Hh' as [Hne Hh'].
  apply Hl in Hh as [Hh _]. apply Hl in Hh' as [Hh' _]. congruence.
Qed.

(** X14.  With the queue running one job at a time in submission order, the
    pending list of a reachable state is the address of the job in flight
    followed by the addresses of the waiting jobs, in order, and a probe
    reply that is still owed belongs to the job in flight. *)
Theorem pending_mirrors_queue timeout w :
  reachable timeout w →
  pending w = slot (queue w) ++ jobs (queue w) ∧
  ∀ a, probing w = Some a → active (queue w) = Some a.
Proof. intros Hr. by destruct (Inv_reachable _ _ Hr) as (_ & _ & ?). Qed.

Lemma queue_drain_balance w :
  length (List.filter is_ping (trace (snd (queue_drain w)))) +
    length (slot (queue w)) =
  length (List.filter is_ping (trace w)) +
    length (slot (queue (snd (queue_drain w)))) ∧
  List.filter is_callback (trace (snd (queue_drain w))) =
  List.filter is_callback (trace w).
Proof.
  unfold queue_drain, job, zigbee_ping, bind, gets, modify, emit, modify, ret,
    slot.
  destruct (halted (queue w)); [done|].
  destruct (active (queue w)) as [b|] eqn:Ha; cbn; [by rewrite Ha|].
  destruct (jobs (queue w)); cbn; [by rewrite Ha|].
  rewrite !List.filter_app, length_app. cbn. rewrite app_nil_r. split; [lia|done].
Qed.

Lemma balanced_log es w :
  List.filter is_ping es = [] → List.filter is_callback es = [] →
  balanced w → balanced (log es w).
Proof.
  intros H1 H2 Hb. unfold balanced. cbn.
  by rewrite !List.filter_app, H1, H2, !app_nil_r.
Qed.

Lemma balanced_setTimer a : stable balanced (setTimer a).
Proof.
  intros w Hb. unfold balanced.
  destruct (setTimer_fields a w) as (_ & _ & _ & _ & -> & _ & _ & ->).
  by rewrite !List.filter_app, !timer_effects_silent, !app_nil_r.
Qed.

Lemma balanced_publishAvailability env a b :
  stable balanced (publishAvailability env a b).
Proof.
  intros w Hb. rewrite publishAvailability_run.
  by apply balanced_log; [apply silent_availability ..|].
Qed.

Lemma balanced_queue_drain : stable balanced queue_drain.
Proof.
  intros w Hb. destruct (queue_drain_balance w) as [H1 H2].
  unfold balanced in *. rewrite H2. lia.
Qed.

Lemma balanced_step timeout env ev w :
  Inv timeout w → balanced w → balanced (step env ev w).
Proof.
  intros Hi Hb. pose proof Hi as (_ & _ & _ & Hact).
  destruct ev as [|h|e|device|]; unfold step.
  - enough (stable balanced (onMQTTConnected env)) as Hs by (by apply Hs).
    apply stable_bind; [|intros _]; apply stable_forEach; intros d;
      [apply balanced_publishAvailability | apply balanced_setTimer].
  - destruct (live w !! h) as [[a ms]|]; [|done].
    destruct (includes (pending w) a) eqn:Hin.
    { rewrite handleInterval_skip by done. by apply balanced_log. }
    rewrite handleInterval_submit, queue_push_unfold by done.
    apply balanced_queue_drain. unfold balanced in *. cbn.
    by rewrite !List.filter_app, !app_nil_r.
  - destruct (probing w) as [a|] eqn:Hp; [|done].
    assert (Hlog : List.filter is_ping
              (probe_log a e :: availability_effects env a (absent e)) = [] ∧
            List.filter is_callback
              (probe_log a e :: availability_effects env a (absent e)) = []).
    { cbn [List.filter]. rewrite !silent_availability by done.
      by destruct e. }
    destruct Hlog as [Hl1 Hl2].
    destruct (mqtt_accepts env (availability_topic env a)) eqn:Hbus.
    2:{ rewrite pingCallback_raises by done. by apply balanced_log. }
    rewrite pingCallback_completes by done.
    set (w1 := set_pending _ _).
    assert (Hb1 : balanced w1).
    { unfold balanced, w1, set_pending, log, set_trace, set_probing.
      cbn [trace queue]. by rewrite !List.filter_app, Hl1, Hl2, !app_nil_r. }
    apply (balanced_setTimer a) in Hb1.
    destruct (setTimer_fields a w1) as (_ & _ & _ & _ & Hq & _).
    set (w2 := snd (setTimer a w1)) in *.
    assert (Hslot : slot (queue w2) = [a]).
    { rewrite Hq. unfold slot. cbn. by rewrite (Hact _ eq_refl). }
    rewrite queueCallback_unfold.
    apply balanced_queue_drain. unfold balanced in *.
    rewrite Hslot in Hb1. unfold slot. cbn.
    rewrite !List.filter_app, !length_app. cbn in *. lia.
  - enough (stable balanced (onZigbeeMessage env device)) as Hs
      by (by apply Hs).
    destruct device as [dev|]; [|apply stable_ret].
    apply stable_bind.
    + unfold call_isPingable. destruct (zigbee_getDevice env _);
        [apply stable_ret | by intros w0 Hw0].
    + intros v. destruct (truthy v); [apply balanced_setTimer|apply stable_ret].
  - enough (stable balanced (stop env)) as Hs by (by apply Hs).
    apply stable_bind.
    + intros w0 Hw0. unfold balanced. cbn.
      by rewrite !List.filter_app, !app_nil_r.
    + intros _. apply stable_forEach; intros d.
      apply balanced_publishAvailability.
Qed.

(** X15.  With the queue running one job at a time, at most one probe is ever
    outstanding: in a reachable state the number of [zigbee.ping] calls made
    exceeds the number of [queueCallback] calls by one while a job holds the
    slot and equals it otherwise. *)
Theorem one_probe_at_a_time timeout w :
  reachable timeout w →
  length (List.filter is_ping (trace w)) =
    length (List.filter is_callback (trace w)) +
    match active (queue w) with Some _ => 1 | None => 0 end.
Proof.
  intros [evs ->].
  enough (Inv timeout (run evs (construct timeout)) ∧
          balanced (run evs (construct timeout))) as [_ Hb].
  { unfold balanced, slot in Hb. rewrite Hb.
    by destruct (active (queue _)). }
  assert (H0 : Inv timeout (construct timeout) ∧ balanced (construct timeout))
    by (split; [apply Inv_construct | done]).
  revert H0. generalize (construct timeout).
  induction evs as [|[env ev] evs IH]; intros w [Hi Hb]; cbn [run]; [done|].
  apply IH. split; [by apply Inv_step | by apply (balanced_step timeout)].
Qed.


(** * Publishes between submission and completion *)











End Properties.

(** * The sample installation, checked *)

Lemma sample_probing_reachable : @reachable sample_utils 60 sample_probing.
Proof.
  exists [(sample_env, Connected); (sample_env, TimerFired 0)]. reflexivity.
Defined.

Lemma sample_bus_reliable : reliable_bus sample_env.
Proof. intros topic. reflexivity. Defined.

(** While the bulb's probe is in flight its address is pending once, and a
    second timer callback for it is skipped. *)
Lemma C1_witness :
  @reachable sample_utils 60 sample_probing ∧
  NoDup (pending sample_probing) ∧
  handleInterval "0xB" sample_probing =
    (Returned tt, log [skip_log "0xB"] sample_probing).
Proof.
  split; [exact sample_probing_reachable|].
  destruct (@C1_pending_unique sample_utils 60 sample_probing
              sample_probing_reachable) as (Hnd & _ & Hskip & _).
  split; [exact Hnd|].
  apply (Hskip "0xB"). vm_compute. left.
Defined.





(** A device of the overridden model with no power source matches the
    override alternative and nothing else. *)
Lemma C4_witness :
  truthy (powerSource devD) = false ∧
  (isPingable devD = JBool true ↔ override_model devD).
Proof.
  split; [reflexivity|].
  apply (C4_isPingable_rule devD). reflexivity.
Defined.

(** A router without a power source is eligible all the same when it is of
    the overridden model. *)
Lemma C4_absent_power_source_eligible :
  type devD = JStr "Router" ∧ powerSource devD = JUndefined ∧
  isPingable devD = JBool true ∧
  ¬ (∀ d, type d = JStr "Router" → truthy (powerSource d) = false →
          isPingable d = JBool false).
Proof.
  split; [reflexivity|]. split; [reflexivity|]. split; [reflexivity|].
  intros Hall. specialize (Hall devD eq_refl eq_refl). discriminate Hall.
Qed.

(** Start-up of the sample installation arms a timeout for the bulb only. *)
Lemma C5_witness :
  reliable_bus sample_env ∧ @reachable sample_utils 60 (construct 60) ∧
  fst (@onMQTTConnected sample_utils sample_env (construct 60)) =
    Returned tt.
Proof.
  split; [exact sample_bus_reliable|].
  assert (Hr : @reachable sample_utils 60 (construct 60))
    by (exists []; reflexivity).
  split; [exact Hr|].
  apply (@C5_startup sample_utils 60 sample_env (construct 60)
           sample_bus_reliable Hr).
Defined.

(** Stopping while the bulb's probe is in flight halts the queue. *)
Lemma C6_witness :
  reliable_bus sample_env ∧
  halted (queue (snd (stop sample_env sample_probing))) = true.
Proof.
  split; [exact sample_bus_reliable|].
  apply (@C6_shutdown sample_utils sample_env sample_probing
           sample_bus_reliable).
Defined.

(** A settings entry without [friendly_name] does not make the handler fall
    back to the address: the topic starts with the text ['undefined']. *)
Lemma C8_entry_without_name :
  unnamed unnamed_env "0xB" ∧
  List.filter is_publish
    (trace (snd (publishAvailability unnamed_env "0xB" true (construct 60))))
    = [EPublish "undefined/availability" "online" (mkOptions true 0)] ∧
  ¬ (∀ env a b w, unnamed env a →
       List.filter is_publish (trace (snd (publishAvailability env a b w))) =
       List.filter is_publish (trace w) ++
       [EPublish (a +:+ "/availability") (availability_payload b)
                 (mkOptions true 0)]).
Proof.
  split; [reflexivity|]. split; [reflexivity|].
  intros Hall.
  specialize (Hall unnamed_env "0xB" true (construct 60) eq_refl).
  vm_compute in Hall. discriminate Hall.
Qed.

(** While the bulb's probe is in flight every live timeout runs for the
    configured sixty seconds. *)
Lemma C9_witness :
  @reachable sample_utils 60 sample_probing ∧
  availability_timeout sample_probing = 60%Z.
Proof.
  split; [exact sample_probing_reachable|].
  apply (@C9_one_timer_per_address sample_utils 60 sample_probing
           sample_probing_reachable).
Defined.

(** * Further sample checks *)

Lemma sample_probing_owed : probing sample_probing = Some "0xB".
Proof. reflexivity. Defined.

Lemma handleInterval_submits_witness :
  ("0xB" ∉ pending (construct 60)) ∧
  pending (snd (handleInterval "0xB" (construct 60))) = ["0xB"].
Proof.
  assert (Hn : "0xB" ∉ pending (construct 60)) by apply not_elem_of_nil.
  split; [exact Hn|].
  apply (handleInterval_submits "0xB" (construct 60) Hn).
Defined.

Lemma submit_then_complete_witness :
  ("0xB" ∉ pending (construct 60)) ∧
  mqtt_accepts sample_env (availability_topic sample_env "0xB") = true ∧
  pending (snd (@pingCallback sample_utils sample_env "0xB" None
                  (snd (handleInterval "0xB" (construct 60))))) = [].
Proof.
  assert (Hn : "0xB" ∉ pending (construct 60)) by apply not_elem_of_nil.
  split; [exact Hn|]. split; [reflexivity|].
  apply (@submit_then_complete_restores_pending sample_utils sample_env
           "0xB" None (construct 60) Hn eq_refl).
Defined.

Lemma completion_removes_first_witness :
  mqtt_accepts sample_env (availability_topic sample_env "0xB") = true ∧
  pending (snd (@pingCallback sample_utils sample_env "0xB" None
                  sample_probing)) = [].
Proof.
  split; [reflexivity|].
  apply (proj2 (@completion_removes_first_occurrence sample_utils sample_env
                  "0xB" None sample_probing eq_refl) [] []).
  - reflexivity.
  - apply not_elem_of_nil.
Defined.

Lemma setTimer_spares_witness :
  @reachable sample_utils 60 sample_probing ∧ "0xC" ≠ "0xB" ∧
  (live (snd (@setTimer sample_utils "0xB" sample_probing)) !! 0
     = Some ("0xC", 60000%Z) ↔
   live sample_probing !! 0 = Some ("0xC", 60000%Z)).
Proof.
  assert (Hne : "0xC" ≠ "0xB") by discriminate.
  split; [exact sample_probing_reachable|]. split; [exact Hne|].
  apply (@setTimer_spares_other_addresses sample_utils 60 "0xB" "0xC"
           sample_probing sample_probing_reachable Hne).
Defined.

Lemma watched_addresses_witness :
  @reachable sample_utils 60 sample_probing ∧
  is_Some (timers sample_probing !! "0xB") ∧
  (has_timer "0xB" sample_probing ∨ "0xB" ∈ pending sample_probing).
Proof.
  assert (Hs : is_Some (timers sample_probing !! "0xB"))
    by (exists 0; reflexivity).
  split; [exact sample_probing_reachable|]. split; [exact Hs|].
  apply (@watched_addresses_stay_watched sample_utils 60 sample_probing
           sample_probing_reachable "0xB" Hs).
Defined.

Lemma startup_aborts_witness :
  mqtt_accepts broken_bus_env (availability_topic broken_bus_env "0xB")
    = false ∧
  fst (@onMQTTConnected sample_utils broken_bus_env (construct 60)) =
    Thrown (BusError "lamp/availability").
Proof.
  split; [reflexivity|].
  apply (@startup_aborts_when_bus_raises sample_utils broken_bus_env
           [] devB [devC] (construct 60)).
  - reflexivity.
  - constructor.
  - reflexivity.
Defined.

Lemma reply_after_stop_witness :
  probing sample_probing = Some "0xB" ∧
  List.filter is_publish
    (trace (@step sample_utils sample_env (ProbeReplied None)
              (snd (stop sample_env sample_probing)))) =
  List.filter is_publish (trace (snd (stop sample_env sample_probing))) ++
  [EPublish "lamp/availability" "online" (mkOptions true 0)].
Proof.
  split; [exact sample_probing_owed|].
  apply (@reply_after_stop_is_published sample_utils sample_env sample_env
           "0xB" None sample_probing sample_probing_owed).
Defined.

Lemma fault_stalls_witness :
  @reachable sample_utils 60 sample_probing ∧
  probing sample_probing = Some "0xB" ∧
  mqtt_accepts broken_bus_env (availability_topic broken_bus_env "0xB")
    = false ∧
  "0xB" ∈ pending
    (@run sample_utils [(sample_env, Message (Some devB))]
       (@step sample_utils broken_bus_env (ProbeReplied None)
          sample_probing)).
Proof.
  split; [exact sample_probing_reachable|].
  split; [exact sample_probing_owed|]. split; [reflexivity|].
  apply (@fault_in_callback_stalls_queue sample_utils 60 broken_bus_env
           "0xB" None sample_probing [(sample_env, Message (Some devB))]
           sample_probing_reachable sample_probing_owed eq_refl).
Defined.

Lemma replacer_saturates_witness :
  (2000 < length (printedObjects sample_saturated))%nat ∧
  @replay sample_builtins sample_root None [("a", sample_map)]
    sample_saturated =
  (Returned [VPrim (JStr "object too long")], sample_saturated).
Proof.
  assert (Hl : (2000 < length (printedObjects sample_saturated))%nat).
  { apply Nat.ltb_lt. vm_compute. reflexivity. }
  split; [exact Hl|].
  apply (@replacer_saturates sample_builtins sample_root None
           [("a", sample_map)] sample_saturated Hl).
Defined.


(** A plain object whose ['constructor'] property holds a string, met a
    second time: line 144 raises, nothing is returned or recorded. *)
Lemma seen_plain_object_raises :
  @printOnceReplacer sample_builtins sample_root None "c" sample_plain
    (mkPrinted [sample_root; sample_plain] ["root"; "b"]) =
  (Thrown (TypeError "Cannot read property 'toLowerCase' of undefined"),
   mkPrinted [sample_root; sample_plain] ["root"; "b"]).
Proof. reflexivity. Qed.

Lemma fresh_value_witness :
  typeof (VPrim (JNum 3)) ≠ "object" ∧
  @printOnceReplacer sample_builtins sample_root None "n" (VPrim (JNum 3))
    sample_printed =
  (Returned (VPrim (JNum 3)),
   mkPrinted [sample_root; sample_map; VPrim (JNum 3)] ["root"; "a"; "n"]).
Proof.
  assert (Ht : typeof (VPrim (JNum 3)) ≠ "object") by discriminate.
  split; [exact Ht|].
  apply (@fresh_value_is_recorded sample_builtins sample_root None "n"
           (VPrim (JNum 3)) sample_printed).
  - cbn. lia.
  - discriminate.
  - left. exact Ht.
Defined.

Lemma recorded_keys_witness :
  "a" ∈ printedObjectKeys
    (snd (@replay sample_builtins sample_root None
            [("", sample_root); ("a", sample_map)] nothing_printed)) ∧
  ("a" = "root" ∨
   ("a" ≠ "" ∧ ∃ v, ("a", v) ∈ [("", sample_root); ("a", sample_map)])).
Proof.
  assert (Hk : "a" ∈ printedObjectKeys
    (snd (@replay sample_builtins sample_root None
            [("", sample_root); ("a", sample_map)] nothing_printed))).
  { cbn. right. left. }
  split; [exact Hk|].
  apply (@recorded_keys_were_passed sample_builtins sample_root None
           [("", sample_root); ("a", sample_map)] "a" Hk).
Defined.

Lemma cycle_through_root_witness :
  typeof sample_root = "object" ∧
  @printOnceReplacer sample_builtins sample_root None "self" sample_root
    (snd (@replay sample_builtins sample_root None
            [("", sample_root); ("a", sample_map)] nothing_printed)) =
  (Returned (VPrim (JStr "(pointer to root)")),
   snd (@replay sample_builtins sample_root None
          [("", sample_root); ("a", sample_map)] nothing_printed)).
Proof.
  split; [reflexivity|].
  apply (@cycle_through_root_is_cut sample_builtins sample_root None
           sample_root [("a", sample_map)] "self").
  - reflexivity.
  - discriminate.
  - cbn. lia.
Defined.

Lemma fired_timer_witness :
  @reachable sample_utils 60
    (@run sample_utils [(sample_env, Connected)] (construct 60)) ∧
  "0xB" ∈ pending
    (@step sample_utils sample_env (TimerFired 0)
       (@run sample_utils [(sample_env, Connected)] (construct 60))).
Proof.
  assert (Hr : @reachable sample_utils 60
                 (@run sample_utils [(sample_env, Connected)] (construct 60)))
    by (exists [(sample_env, Connected)]; reflexivity).
  split; [exact Hr|].
  apply (@fired_timer_leaves_address_pending sample_utils 60 sample_env 0
           "0xB" 60000%Z _ Hr eq_refl).
Defined.

Lemma pending_mirrors_queue_witness :
  @reachable sample_utils 60 sample_probing ∧
  pending sample_probing =
    slot (queue sample_probing) ++ jobs (queue sample_probing).
Proof.
  split; [exact sample_probing_reachable|].
  apply (@pending_mirrors_queue sample_utils 60 sample_probing
           sample_probing_reachable).
Defined.

Lemma one_probe_at_a_time_witness :
  @reachable sample_utils 60 sample_probing ∧
  length (List.filter is_ping (trace sample_probing)) =
    length (List.filter is_callback (trace sample_probing)) +
    match active (queue sample_probing) with Some _ => 1 | None => 0 end.
Proof.
  split; [exact sample_probing_reachable|].
  apply (@one_probe_at_a_time sample_utils 60 sample_probing
           sample_probing_reachable).
Defined.

